(** * AetherDrive: envelope codec, storage capability and identity resolver

    A shallow embedding of [lib/encryption.js], [lib/storage.js] and
    [lib/fileManager.js].  JavaScript objects become records, the file
    system, the random generator and the clock form an explicit [World]
    that every asynchronous method threads through, and a thrown [Error]
    is the [Throw] outcome of a small state-and-exception monad.  The
    Node.js [crypto] primitives the code calls (the AES block function
    and PBKDF2) are section variables; CBC chaining and block padding,
    which decide the envelope's length and its round trip, are written
    out.  PBKDF2 with HMAC-SHA-256, the derivation [generateKey] asks
    for, is written out as well, for the properties of key derivation
    that depend on how a password enters it. *)

From Stdlib Require Import Strings.Byte Strings.Ascii NArith ZArith Lia.
From stdpp Require Import gmap strings pretty list fin_maps.

(** ** JavaScript values *)

Module Js.

(** A Node [Buffer]: a finite sequence of octets. *)
Abbreviation Buffer := (list byte).

(** [Buffer.from(str)] for a string taken as its sequence of octets. *)
Definition Buffer_from (s : string) : Buffer := String.list_byte_of_string s.

(** A thrown [Error] object: the optional [code] property that Node's
    system and crypto errors carry, and the [message]. *)
Record JsError : Type := mkJsError { code : option string; message : string }.

(** [new Error(msg)]: no [code] property. *)
Definition Error (msg : string) : JsError := {| code := None; message := msg |}.

(** Outcome of an awaited call: a value, or a thrown error. *)
Inductive Result (A : Type) : Type :=
| Ok (a : A)
| Throw (e : JsError).
Arguments Ok {A} a.
Arguments Throw {A} e.

(** [x || d] on an optional string property: [undefined] and the empty
    string are both falsy, so both select the default. *)
Definition or_string (x : option string) (d : string) : string :=
  match x with
  | Some (String c s) => String c s
  | Some EmptyString | None => d
  end.

(** [x || false] on an optional boolean property. *)
Definition or_false (x : option bool) : bool :=
  match x with Some b => b | None => false end.

(** *** [Map] with string keys

    A JavaScript [Map] iterates in insertion order, and [set] on a key
    that is already present keeps the key's position. *)
Abbreviation Map V := (list (string * V)).

Section JsMap.
Context {V : Type}.

Fixpoint get (k : string) (m : Map V) : option V :=
  match m with
  | [] => None
  | (k', v) :: m' => if decide (k' = k) then Some v else get k m'
  end.

Fixpoint set (k : string) (v : V) (m : Map V) : Map V :=
  match m with
  | [] => [(k, v)]
  | (k', v') :: m' =>
      if decide (k' = k) then (k, v) :: m' else (k', v') :: set k v m'
  end.

Definition delete (k : string) (m : Map V) : Map V :=
  filter (λ kv, kv.1 ≠ k) m.

Definition values (m : Map V) : list V := m.*2.

Definition keys (m : Map V) : list string := m.*1.
End JsMap.

End Js.
Import Js.

(** ** The world outside the process *)

(** The file system as a finite map from path to file content (the
    directory tree is not modelled: [ensureDir] cannot fail), the system
    random generator as the tape of octets it will deliver, and the
    clock that [new Date()] reads. *)
Record World : Type := mkWorld {
  fs : gmap string Buffer;
  rng : nat → byte;
  clock : N
}.

Definition set_fs (f : gmap string Buffer → gmap string Buffer) (w : World) : World :=
  {| fs := f (fs w); rng := rng w; clock := clock w |}.

(** ** Computations that read and write a state and may throw *)

Definition M (Σ A : Type) : Type := Σ → Result A * Σ.

Definition ret {Σ A} (a : A) : M Σ A := λ σ, (Ok a, σ).

Definition throw {Σ A} (e : JsError) : M Σ A := λ σ, (Throw e, σ).

Definition bind {Σ A B} (m : M Σ A) (k : A → M Σ B) : M Σ B :=
  λ σ, match m σ with
       | (Ok a, σ') => k a σ'
       | (Throw e, σ') => (Throw e, σ')
       end.

(** [try { m } catch (error) { h error }]: the state reached when the
    error was thrown is the state the handler starts from. *)
Definition try_catch {Σ A} (m : M Σ A) (h : JsError → M Σ A) : M Σ A :=
  λ σ, match m σ with
       | (Ok a, σ') => (Ok a, σ')
       | (Throw e, σ') => h e σ'
       end.

Declare Scope js_scope.
Delimit Scope js_scope with js.
Notation "x <- m ;; k" := (bind m (λ x, k))
  (at level 100, m at next level, right associativity) : js_scope.
Notation "'await' m ;; k" := (bind m (λ _, k))
  (at level 100, m at next level, right associativity) : js_scope.
Local Open Scope js_scope.

(** ** [fs-extra] and [path] *)

Module Fs.

Definition ENOENT (syscall path : string) : JsError :=
  {| code := Some "ENOENT";
     message := "ENOENT: no such file or directory, " +:+ syscall +:+ " '" +:+ path +:+ "'" |}.

Definition access (path : string) : M World () :=
  λ w, match fs w !! path with
       | Some _ => (Ok (), w)
       | None => (Throw (ENOENT "access" path), w)
       end.

Definition readFile (path : string) : M World Buffer :=
  λ w, match fs w !! path with
       | Some content => (Ok content, w)
       | None => (Throw (ENOENT "open" path), w)
       end.

Definition writeFile (path : string) (data : Buffer) : M World () :=
  λ w, (Ok (), set_fs (insert path data) w).

(** [fs.stat(path).size] *)
Definition stat_size (path : string) : M World nat :=
  λ w, match fs w !! path with
       | Some content => (Ok (length content), w)
       | None => (Throw (ENOENT "stat" path), w)
       end.

Definition ensureDir (dir : string) : M World () := ret ().

(** [fs.remove]: removing a missing path is not an error. *)
Definition remove (path : string) : M World () :=
  λ w, (Ok (), set_fs (base.delete path) w).

End Fs.

Module Path.

(** Index just after the last ['/'] of [s], if any, counting from [i]. *)
Fixpoint after_last_slash (s : string) (i : nat) (last : option nat) : option nat :=
  match s with
  | EmptyString => last
  | String c s' =>
      after_last_slash s' (S i) (if Ascii.eqb c "/" then Some (S i) else last)
  end.

Definition basename (p : string) : string :=
  match after_last_slash p 0 None with
  | Some i => String.substring i (String.length p - i) p
  | None => p
  end.

Definition dirname (p : string) : string :=
  match after_last_slash p 0 None with
  | Some 1 => "/"
  | Some i => String.substring 0 (i - 1) p
  | None => "."
  end.

Definition join (a b : string) : string := a +:+ "/" +:+ b.

End Path.

(** ** Node's [crypto] module *)

Module Crypto.

(** [crypto.randomBytes(n)]: the next [n] octets of the tape. *)
Definition randomBytes (n : nat) : M World Buffer :=
  λ w, (Ok (rng w <$> seq 0 n),
        {| fs := fs w; rng := λ i, rng w (n + i); clock := clock w |}).

Definition xor_bits (x y : bool * (bool * (bool * (bool * (bool * (bool * (bool * bool)))))))
  : bool * (bool * (bool * (bool * (bool * (bool * (bool * bool)))))) :=
  let '(x0, (x1, (x2, (x3, (x4, (x5, (x6, x7))))))) := x in
  let '(y0, (y1, (y2, (y3, (y4, (y5, (y6, y7))))))) := y in
  (xorb x0 y0, (xorb x1 y1, (xorb x2 y2, (xorb x3 y3,
   (xorb x4 y4, (xorb x5 y5, (xorb x6 y6, xorb x7 y7))))))).

Definition xor_byte (a b : byte) : byte :=
  Byte.of_bits (xor_bits (Byte.to_bits a) (Byte.to_bits b)).

(** Octet-wise exclusive or of a block with the chaining value. *)
Definition xor_buf (a b : Buffer) : Buffer := zip_with xor_byte a b.

(** The octet whose value is [n] (for [n] below 256). *)
Definition byte_of_nat (n : nat) : byte := default x00 (Byte.of_nat n).

(** The first [n] 16-octet blocks of [data]. *)
Fixpoint blocks (n : nat) (data : Buffer) : list Buffer :=
  match n with
  | 0 => []
  | S n' => take 16 data :: blocks n' (drop 16 data)
  end.

Definition ERR_CRYPTO_UNKNOWN_CIPHER : JsError :=
  {| code := Some "ERR_CRYPTO_UNKNOWN_CIPHER"; message := "Unknown cipher" |}.

Definition ERR_CRYPTO_INVALID_IV : JsError :=
  {| code := Some "ERR_CRYPTO_INVALID_IV"; message := "Invalid initialization vector" |}.

Definition ERR_CRYPTO_INVALID_KEYLEN : JsError :=
  {| code := Some "ERR_CRYPTO_INVALID_KEYLEN"; message := "Invalid key length" |}.

(** The two ways OpenSSL's [EVP_DecryptFinal_ex] rejects its input. *)
Definition ERR_OSSL_WRONG_FINAL_BLOCK_LENGTH : JsError :=
  {| code := Some "ERR_OSSL_WRONG_FINAL_BLOCK_LENGTH";
     message := "error:1C80006B:Provider routines::wrong final block length" |}.

Definition ERR_OSSL_BAD_DECRYPT : JsError :=
  {| code := Some "ERR_OSSL_BAD_DECRYPT";
     message := "error:1C800064:Provider routines::bad decrypt" |}.

Section Primitives.
(** The AES-256 block function and its inverse, on a 32-octet key and a
    16-octet block. *)
Variable aes256_encrypt_block : Buffer → Buffer → Buffer.
Variable aes256_decrypt_block : Buffer → Buffer → Buffer.

(** CBC chaining over whole blocks; returns the output blocks and the
    next chaining value. *)
Fixpoint cbc_encrypt (key prev : Buffer) (bs : list Buffer) : list Buffer * Buffer :=
  match bs with
  | [] => ([], prev)
  | b :: bs' =>
      let c := aes256_encrypt_block key (xor_buf b prev) in
      let '(cs, last) := cbc_encrypt key c bs' in
      (c :: cs, last)
  end.

Fixpoint cbc_decrypt (key prev : Buffer) (cs : list Buffer) : list Buffer * Buffer :=
  match cs with
  | [] => ([], prev)
  | c :: cs' =>
      let b := xor_buf (aes256_decrypt_block key c) prev in
      let '(bs, last) := cbc_decrypt key c cs' in
      (b :: bs, last)
  end.

(** The object [crypto.createCipheriv] returns: key, chaining value,
    and the octets of an incomplete block waiting for more input. *)
Record Cipher : Type := mkCipher {
  c_key : Buffer;
  c_chain : Buffer;
  c_pending : Buffer
}.

(** The object [crypto.createDecipheriv] returns; [d_held] is the last
    decrypted block, kept back until [final] strips its padding. *)
Record Decipher : Type := mkDecipher {
  d_key : Buffer;
  d_chain : Buffer;
  d_pending : Buffer;
  d_held : option Buffer
}.

(** Both constructors know the one cipher the code names, and reject an
    IV that is not one block long, then a key that is not 32 octets
    long. *)
Definition createCipheriv {Σ} (algorithm : string) (key iv : Buffer) : M Σ Cipher :=
  if decide (algorithm ≠ "aes-256-cbc") then throw ERR_CRYPTO_UNKNOWN_CIPHER
  else if decide (length iv ≠ 16) then throw ERR_CRYPTO_INVALID_IV
  else if decide (length key ≠ 32) then throw ERR_CRYPTO_INVALID_KEYLEN
  else ret {| c_key := key; c_chain := iv; c_pending := [] |}.

Definition createDecipheriv {Σ} (algorithm : string) (key iv : Buffer) : M Σ Decipher :=
  if decide (algorithm ≠ "aes-256-cbc") then throw ERR_CRYPTO_UNKNOWN_CIPHER
  else if decide (length iv ≠ 16) then throw ERR_CRYPTO_INVALID_IV
  else if decide (length key ≠ 32) then throw ERR_CRYPTO_INVALID_KEYLEN
  else ret {| d_key := key; d_chain := iv; d_pending := []; d_held := None |}.

(** [cipher.update(data)]: encrypts every complete block available. *)
Definition cipher_update (c : Cipher) (data : Buffer) : Buffer * Cipher :=
  let all := c_pending c ++ data in
  let n := length all `div` 16 in
  let '(cs, chain) := cbc_encrypt (c_key c) (c_chain c) (blocks n all) in
  (concat cs, {| c_key := c_key c; c_chain := chain; c_pending := drop (16 * n) all |}).

(** [cipher.final()]: the pending octets, padded to a block with [k]
    copies of the octet [k], [1 ≤ k ≤ 16]. *)
Definition cipher_final (c : Cipher) : Buffer :=
  let k := 16 - length (c_pending c) in
  let padded := c_pending c ++ replicate k (byte_of_nat k) in
  aes256_encrypt_block (c_key c) (xor_buf padded (c_chain c)).

(** [decipher.update(data)]: decrypts every complete block available,
    and when the input ends on a block boundary keeps the last block
    back. Empty input changes nothing. *)
Definition decipher_update (d : Decipher) (data : Buffer) : Buffer * Decipher :=
  match data with
  | [] => ([], d)
  | _ =>
      let all := d_pending d ++ data in
      let n := length all `div` 16 in
      let '(bs, chain) := cbc_decrypt (d_key d) (d_chain d) (blocks n all) in
      let rest := drop (16 * n) all in
      let released := from_option (λ b, [b]) [] (d_held d) in
      match rest with
      | [] =>
          (concat (released ++ removelast bs),
           {| d_key := d_key d; d_chain := chain; d_pending := []; d_held := last bs |})
      | _ =>
          (concat (released ++ bs),
           {| d_key := d_key d; d_chain := chain; d_pending := rest; d_held := None |})
      end
  end.

(** Padding check on the block kept back: its last octet [k] must be
    between 1 and 16 and the last [k] octets must all be [k]. *)
Definition unpad (blk : Buffer) : option Buffer :=
  match last blk with
  | None => None
  | Some b =>
      let k := Byte.to_nat b in
      if decide (k = 0 ∨ 16 < k) then None
      else if forallb (Byte.eqb b) (drop (16 - k) blk)
           then Some (take (16 - k) blk) else None
  end.

(** [decipher.final()] *)
Definition decipher_final {Σ} (d : Decipher) : M Σ Buffer :=
  match d_pending d with
  | _ :: _ => throw ERR_OSSL_WRONG_FINAL_BLOCK_LENGTH
  | [] =>
      match d_held d with
      | None => throw ERR_OSSL_WRONG_FINAL_BLOCK_LENGTH
      | Some blk =>
          match unpad blk with
          | Some tail => ret tail
          | None => throw ERR_OSSL_BAD_DECRYPT
          end
      end
  end.
End Primitives.

(** The plaintext blocks that one [cipher.update(p)] followed by
    [cipher.final()] encrypts: the whole blocks of [p], then its
    remainder padded to a block. *)
Definition padded (p : Buffer) : list Buffer :=
  let rest := drop (16 * (length p `div` 16)) p in
  blocks (length p `div` 16) p
  ++ [rest ++ replicate (16 - length rest) (byte_of_nat (16 - length rest))].

End Crypto.

(** ** [crypto.pbkdf2Sync] with the digest ['sha256'] *)

(** SHA-256 (FIPS 180-4) on octet sequences. *)
Module Sha256.

(** A 32-bit word is a [Z] below [2^32]; sums wrap around. *)
Definition word (x : Z) : Z := (x mod 4294967296)%Z.

Definition add (x y : Z) : Z := word (x + y).

Definition rotr (n x : Z) : Z := Z.lor (Z.shiftr x n) (word (Z.shiftl x (32 - n))).

Definition shr (n x : Z) : Z := Z.shiftr x n.

Definition Ch (x y z : Z) : Z :=
  Z.lxor (Z.land x y) (Z.land (Z.lxor x 4294967295) z).

Definition Maj (x y z : Z) : Z :=
  Z.lxor (Z.lxor (Z.land x y) (Z.land x z)) (Z.land y z).

Definition Sigma0 (x : Z) : Z := Z.lxor (Z.lxor (rotr 2 x) (rotr 13 x)) (rotr 22 x).

Definition Sigma1 (x : Z) : Z := Z.lxor (Z.lxor (rotr 6 x) (rotr 11 x)) (rotr 25 x).

Definition sigma0 (x : Z) : Z := Z.lxor (Z.lxor (rotr 7 x) (rotr 18 x)) (shr 3 x).

Definition sigma1 (x : Z) : Z := Z.lxor (Z.lxor (rotr 17 x) (rotr 19 x)) (shr 10 x).

(** A word written in hexadecimal digits, as the standard prints it. *)
Definition hex_digit (c : ascii) : Z :=
  let n := Z.of_N (Ascii.N_of_ascii c) in
  if (n <? 58)%Z then (n - 48)%Z else (n - 87)%Z.

Definition hex_word (s : string) : Z :=
  fold_left (λ acc c, 16 * acc + hex_digit c)%Z (String.list_ascii_of_string s) 0%Z.

(** The round constants: the first 32 bits of the fractional parts of
    the cube roots of the first 64 primes. *)
Definition K : list Z := Eval cbv in hex_word <$>
  ["428a2f98"; "71374491"; "b5c0fbcf"; "e9b5dba5"; "3956c25b"; "59f111f1";
   "923f82a4"; "ab1c5ed5"; "d807aa98"; "12835b01"; "243185be"; "550c7dc3";
   "72be5d74"; "80deb1fe"; "9bdc06a7"; "c19bf174"; "e49b69c1"; "efbe4786";
   "0fc19dc6"; "240ca1cc"; "2de92c6f"; "4a7484aa"; "5cb0a9dc"; "76f988da";
   "983e5152"; "a831c66d"; "b00327c8"; "bf597fc7"; "c6e00bf3"; "d5a79147";
   "06ca6351"; "14292967"; "27b70a85"; "2e1b2138"; "4d2c6dfc"; "53380d13";
   "650a7354"; "766a0abb"; "81c2c92e"; "92722c85"; "a2bfe8a1"; "a81a664b";
   "c24b8b70"; "c76c51a3"; "d192e819"; "d6990624"; "f40e3585"; "106aa070";
   "19a4c116"; "1e376c08"; "2748774c"; "34b0bcb5"; "391c0cb3"; "4ed8aa4a";
   "5b9cca4f"; "682e6ff3"; "748f82ee"; "78a5636f"; "84c87814"; "8cc70208";
   "90befffa"; "a4506ceb"; "bef9a3f7"; "c67178f2"].

(** The eight working variables, and the hash value between blocks. *)
Record State : Type := mkState {
  st_a : Z; st_b : Z; st_c : Z; st_d : Z; st_e : Z; st_f : Z; st_g : Z; st_h : Z
}.

Definition H0 : State :=
  {| st_a := 0x6a09e667; st_b := 0xbb67ae85; st_c := 0x3c6ef372; st_d := 0xa54ff53a;
     st_e := 0x510e527f; st_f := 0x9b05688c; st_g := 0x1f83d9ab; st_h := 0x5be0cd19 |}%Z.

(** One round, on a constant and a word of the message schedule. *)
Definition round (st : State) (kw : Z * Z) : State :=
  let t1 := add (add (add (add (st_h st) (Sigma1 (st_e st)))
                        (Ch (st_e st) (st_f st) (st_g st))) kw.1) kw.2 in
  let t2 := add (Sigma0 (st_a st)) (Maj (st_a st) (st_b st) (st_c st)) in
  {| st_a := add t1 t2; st_b := st_a st; st_c := st_b st; st_d := st_c st;
     st_e := add (st_d st) t1; st_f := st_e st; st_g := st_f st; st_h := st_g st |}.

(** The message schedule: [n] more words after those of [ws]. *)
Fixpoint schedule (n : nat) (ws : list Z) : list Z :=
  match n with
  | 0 => ws
  | S n' =>
      let t := length ws in
      let w i := nth (t - i) ws 0%Z in
      schedule n' (ws ++ [add (add (add (sigma1 (w 2)) (w 7)) (sigma0 (w 15))) (w 16)])
  end.

Definition compress (st : State) (block : list Z) : State :=
  let st' := foldl round st (zip K (schedule 48 block)) in
  {| st_a := add (st_a st) (st_a st'); st_b := add (st_b st) (st_b st');
     st_c := add (st_c st) (st_c st'); st_d := add (st_d st) (st_d st');
     st_e := add (st_e st) (st_e st'); st_f := add (st_f st) (st_f st');
     st_g := add (st_g st) (st_g st'); st_h := add (st_h st) (st_h st') |}.

Definition Z_of_byte (b : byte) : Z := Z.of_N (Byte.to_N b).

Definition byte_of_Z (x : Z) : byte := default x00 (Byte.of_N (Z.to_N (x mod 256))).

(** The big-endian words of an octet sequence of whole words. *)
Fixpoint words (data : Buffer) : list Z :=
  match data with
  | b0 :: b1 :: b2 :: b3 :: rest =>
      (Z_of_byte b0 * 16777216 + Z_of_byte b1 * 65536 + Z_of_byte b2 * 256
       + Z_of_byte b3)%Z :: words rest
  | _ => []
  end.

Definition word_bytes (x : Z) : Buffer :=
  [byte_of_Z (Z.shiftr x 24); byte_of_Z (Z.shiftr x 16); byte_of_Z (Z.shiftr x 8);
   byte_of_Z x].

(** The first [n] 16-word blocks of [ws]. *)
Fixpoint groups (n : nat) (ws : list Z) : list (list Z) :=
  match n with
  | 0 => []
  | S n' => take 16 ws :: groups n' (drop 16 ws)
  end.

(** Padding: the octet 0x80, zero octets up to 56 modulo 64, and the
    length in bits as a 64-bit big-endian number. *)
Definition pad (msg : Buffer) : Buffer :=
  let len := length msg in
  let bits := (8 * Z.of_nat len)%Z in
  msg ++ [x80] ++ replicate ((64 - (len + 9) `mod` 64) `mod` 64) x00
      ++ word_bytes (Z.shiftr bits 32) ++ word_bytes bits.

Definition digest (st : State) : Buffer :=
  word_bytes (st_a st) ++ word_bytes (st_b st) ++ word_bytes (st_c st)
  ++ word_bytes (st_d st) ++ word_bytes (st_e st) ++ word_bytes (st_f st)
  ++ word_bytes (st_g st) ++ word_bytes (st_h st).

Definition sha256 (msg : Buffer) : Buffer :=
  let ws := words (pad msg) in
  digest (foldl compress H0 (groups (length ws `div` 16) ws)).

End Sha256.

(** HMAC (RFC 2104) with SHA-256. *)
Module Hmac.

Definition block_size : nat := 64.

(** The key as HMAC uses it: hashed when longer than a block, then
    filled with zero octets to a block. *)
Definition hmac_key (key : Buffer) : Buffer :=
  let k := if decide (block_size < length key) then Sha256.sha256 key else key in
  k ++ replicate (block_size - length k) x00.

Definition hmac_block (kb msg : Buffer) : Buffer :=
  Sha256.sha256
    (Crypto.xor_buf kb (replicate block_size x5c)
     ++ Sha256.sha256 (Crypto.xor_buf kb (replicate block_size x36) ++ msg)).

Definition hmac (key msg : Buffer) : Buffer := hmac_block (hmac_key key) msg.

End Hmac.

(** PBKDF2 (RFC 8018), as OpenSSL's [PKCS5_PBKDF2_HMAC] computes it. *)
Module Pbkdf2.

(** [F(P, S, c, i)]: the exclusive or of [c] chained outputs of the
    pseudo-random function. *)
Definition F (prf : Buffer → Buffer) (salt : Buffer) (c : N) (i : nat) : Buffer :=
  let u1 := prf (salt ++ Sha256.word_bytes (Z.of_nat i)) in
  (N.iter (c - 1)
     (λ ut : Buffer * Buffer, let u := prf ut.1 in (u, Crypto.xor_buf ut.2 u))
     (u1, u1)).2.

Definition pbkdf2 (prf : Buffer → Buffer) (salt : Buffer) (c : N) (dkLen : nat)
  : Buffer :=
  take dkLen (concat ((λ i, F prf salt c (S i)) <$> seq 0 ((dkLen + 31) `div` 32))).

(** [crypto.pbkdf2Sync(password, salt, iterations, keylen, digest)]; a
    string password is taken by its octets.  Only the digest the code
    names is written out. *)
Definition pbkdf2Sync (password : string) (salt : Buffer) (iterations : N)
  (keylen : nat) (digest : string) : Buffer :=
  if decide (digest = "sha256")
  then pbkdf2 (Hmac.hmac (Buffer_from password)) salt iterations keylen
  else [].

End Pbkdf2.

Arguments Sha256.sha256 : simpl never.
Arguments Hmac.hmac_block : simpl never.
Arguments Pbkdf2.F : simpl never.
Arguments Pbkdf2.pbkdf2 : simpl never.
Arguments Pbkdf2.pbkdf2Sync : simpl never.

(** ** [lib/encryption.js] *)

Module Encryption.

(** [ALGORITHM = 'aes-256-cbc'] *)
Definition ALGORITHM : string := "aes-256-cbc".

(** [str.replace(/\.enc$/, '.dec')]: the pattern can only match the last
    four characters. *)
Fixpoint replace_enc_suffix (s : string) : string :=
  match s with
  | EmptyString => EmptyString
  | String c s' =>
      if decide (s = ".enc") then ".dec" else String c (replace_enc_suffix s')
  end.

(** The [options] argument of [encryptFile] and [decryptFile]. *)
Record Options : Type := mkOptions { outputPath : option string }.

(** [options = {}] *)
Definition no_options : Options := {| outputPath := None |}.

(** The object [generateKey] returns. *)
Record KeyAndSalt : Type := mkKeyAndSalt { key : Buffer; salt : Buffer }.

Section WithPrimitives.
(** The AES-256 block function and its inverse, and
    [crypto.pbkdf2Sync(password, salt, iterations, keylen, digest)]. *)
Variable aes256_encrypt_block : Buffer → Buffer → Buffer.
Variable aes256_decrypt_block : Buffer → Buffer → Buffer.
Variable pbkdf2Sync : string → Buffer → N → nat → string → Buffer.

(** [generateKey(password, salt = null)].  A [Buffer] is truthy even
    when empty, so [salt || crypto.randomBytes(16)] draws a salt only
    when none was passed. *)
Definition generateKey (password : string) (salt : option Buffer) : M World KeyAndSalt :=
  useSalt <- match salt with
             | Some s => ret s
             | None => Crypto.randomBytes 16
             end ;;
  let key := pbkdf2Sync password useSalt 100000%N 32 "sha256" in
  ret {| key := key; salt := useSalt |}.

Definition encryptFile (filePath encryptionKey : string) (options : Options)
  : M World string :=
  try_catch
    (await Fs.access filePath ;;
     let outputPath := or_string (outputPath options) (filePath +:+ ".enc") in
     await Fs.ensureDir (Path.dirname outputPath) ;;
     iv <- Crypto.randomBytes 16 ;;
     ks <- generateKey encryptionKey None ;;
     cipher <- Crypto.createCipheriv ALGORITHM (key ks) iv ;;
     fileContent <- Fs.readFile filePath ;;
     let '(head, cipher') :=
       Crypto.cipher_update aes256_encrypt_block cipher fileContent in
     let tail := Crypto.cipher_final aes256_encrypt_block cipher' in
     let encryptedData := salt ks ++ iv ++ head ++ tail in
     await Fs.writeFile outputPath encryptedData ;;
     ret outputPath)
    (λ error,
       if decide (code error = Some "ENOENT")
       then throw (Error ("File not found: " +:+ filePath))
       else throw (Error ("Failed to encrypt file: " +:+ message error))).

Definition decryptFile (filePath encryptionKey : string) (options : Options)
  : M World string :=
  try_catch
    (await Fs.access filePath ;;
     let outputPath := or_string (outputPath options) (replace_enc_suffix filePath) in
     await Fs.ensureDir (Path.dirname outputPath) ;;
     encryptedData <- Fs.readFile filePath ;;
     let salt := take 16 encryptedData in
     let iv := take 16 (drop 16 encryptedData) in
     let encryptedContent := drop 32 encryptedData in
     ks <- generateKey encryptionKey (Some salt) ;;
     decipher <- Crypto.createDecipheriv ALGORITHM (key ks) iv ;;
     try_catch
       (let '(head, decipher') :=
          Crypto.decipher_update aes256_decrypt_block decipher encryptedContent in
        tail <- Crypto.decipher_final decipher' ;;
        let decryptedData := head ++ tail in
        await Fs.writeFile outputPath decryptedData ;;
        ret outputPath)
       (λ cryptoError,
          throw (Error ("Decryption failed, possibly due to incorrect password: "
                        +:+ message cryptoError))))
    (λ error,
       if decide (code error = Some "ENOENT")
       then throw (Error ("File not found: " +:+ filePath))
       else throw (Error ("Failed to decrypt file: " +:+ message error))).
End WithPrimitives.

(** The two ways [decryptFile] fails on a file that exists, told apart
    by the message of the error it throws: the decipher could not be
    created for the header found, or the cipher rejected the content. *)
Definition MalformedInput (e : JsError) : bool :=
  bool_decide (message e = "Failed to decrypt file: " +:+ message Crypto.ERR_CRYPTO_INVALID_IV).

Definition DecryptionFailure (e : JsError) : bool :=
  String.prefix
    "Failed to decrypt file: Decryption failed, possibly due to incorrect password: "
    (message e).

(** The specification's [ciphertextLength], in its words: the smallest
    multiple of the block size strictly greater than [n] when [n] is a
    multiple of the block size, else [n] rounded up to the next multiple. *)
Definition spec_ciphertextLength (n : nat) : nat :=
  if decide (n `mod` 16 = 0) then n + 16 else 16 * ((n + 15) `div` 16).

End Encryption.

(** ** Shared pieces of the storage and resolver layers *)

(** The [options] object handed to the storage and resolver methods. *)
Record Options : Type := mkOptions {
  fileId : option string;
  contentType : option string;
  encrypted : option bool
}.

(** [options = {}] *)
Definition no_options : Options :=
  {| fileId := None; contentType := None; encrypted := None |}.

(** Runs a computation on the world next to an object's own state. *)
Definition in_world {S A} (m : M World A) : M (S * World) A :=
  λ '(s, w), let '(r, w') := m w in (r, (s, w')).

(** Reads the fields of [this]. *)
Definition this {S} : M (S * World) S := λ '(s, w), (Ok s, (s, w)).

(** Assigns to fields of [this]. *)
Definition update {S} (f : S → S) : M (S * World) () := λ '(s, w), (Ok (), (f s, w)).

(** [new Date()] and [Date.now()] *)
Definition now : M World N := λ w, (Ok (clock w), w).

(** [os.tmpdir()] *)
Definition os_tmpdir : string := "/tmp".

(** ** [lib/storage.js] *)

Module Storage.

(** An entry of the mock store's [files] map. *)
Record MockFile : Type := mkMockFile {
  mf_id : string;
  mf_path : string;
  mf_content : Buffer;
  mf_originalPath : string;
  mf_size : nat;
  mf_createdAt : N
}.

(** What [listFiles] reports for one file. *)
Record Listed : Type := mkListed {
  l_id : string;
  l_size : option nat;
  l_createdAt : option N;
  l_type : option string
}.

(** The methods of an [ipfs-http-client] instance that the code calls,
    acting on the client's own state [R] (the node it talks to). *)
Record IpfsClient (R : Type) : Type := mkIpfsClient {
  ipfs_add : Buffer → Options → M R string;
  ipfs_cat : string → Options → M R (list Buffer);
  ipfs_pin_rm : string → Options → M R ();
  ipfs_pin_ls : Options → M R (list (string * string))
}.
Arguments ipfs_add {R}.
Arguments ipfs_cat {R}.
Arguments ipfs_pin_rm {R}.
Arguments ipfs_pin_ls {R}.

(** The fields of a [Storage] instance; [ipfs] is absent when the client
    library could not be loaded or created. *)
Record Storage (R : Type) : Type := mkStorage {
  storageType : string;
  tempDir : string;
  files : Map MockFile;
  usingMock : bool;
  ipfs : option R
}.
Arguments mkStorage {R}.
Arguments storageType {R}.
Arguments tempDir {R}.
Arguments files {R}.
Arguments usingMock {R}.
Arguments ipfs {R}.

Section WithClient.
Context {R : Type}.
(** The client library, and the hexadecimal SHA-256 digest
    ([crypto.createHash('sha256').update(content).digest('hex')]). *)
Variable client : IpfsClient R.
Variable sha256_hex : Buffer → string.

Definition set_files (f : Map MockFile → Map MockFile) (s : Storage R) : Storage R :=
  {| storageType := storageType s; tempDir := tempDir s; files := f (files s);
     usingMock := usingMock s; ipfs := ipfs s |}.

(** Calls a client method on the instance's [ipfs] handle [r]. *)
Definition on_ipfs {A} (r : R) (m : M R A) : M (Storage R * World) A :=
  λ '(s, w), let '(res, r') := m r in
             (res, ({| storageType := storageType s; tempDir := tempDir s;
                       files := files s; usingMock := usingMock s;
                       ipfs := Some r' |}, w)).

(** [new Storage(storageType, config)]; [create] is
    [ipfsHttpClient.create] applied to the configured URL when the
    library was loaded. *)
Definition new (create : option (Result R)) (storageType : string)
  : M World (Storage R) :=
  stamp <- now ;;
  let tempDir := Path.join os_tmpdir ("aetherdrive-storage-" +:+ pretty stamp) in
  await Fs.ensureDir tempDir ;;
  if decide (storageType = "ipfs") then
    match create with
    | Some (Ok r) =>
        ret {| storageType := storageType; tempDir := tempDir; files := [];
               usingMock := false; ipfs := Some r |}
    | Some (Throw _) | None =>
        ret {| storageType := storageType; tempDir := tempDir; files := [];
               usingMock := true; ipfs := None |}
    end
  else throw (Error ("Unsupported storage type: " +:+ storageType)).

Definition _generateMockFileId (content : Buffer) : string :=
  "mock-" +:+ String.substring 0 8 (sha256_hex content).

Definition _mockUploadFile (filePath : string) (fileContent : Buffer) (options : Options)
  : M (Storage R * World) string :=
  let fileId := or_string (fileId options) (_generateMockFileId fileContent) in
  self <- this ;;
  let storagePath := Path.join (tempDir self) fileId in
  await in_world (Fs.writeFile storagePath fileContent) ;;
  createdAt <- in_world now ;;
  await update (set_files (set fileId
    {| mf_id := fileId; mf_path := storagePath; mf_content := fileContent;
       mf_originalPath := filePath; mf_size := length fileContent;
       mf_createdAt := createdAt |})) ;;
  ret fileId.

Definition uploadFile (filePath : string) (options : Options)
  : M (Storage R * World) string :=
  try_catch
    (await in_world (Fs.access filePath) ;;
     fileContent <- in_world (Fs.readFile filePath) ;;
     self <- this ;;
     if decide (storageType self = "ipfs") then
       match usingMock self, ipfs self with
       | false, Some r =>
           try_catch (on_ipfs r (ipfs_add client fileContent options))
             (λ error, _mockUploadFile filePath fileContent options)
       | _, _ => _mockUploadFile filePath fileContent options
       end
     else throw (Error ("Upload not implemented for storage type: "
                        +:+ storageType self)))
    (λ error,
       if decide (code error = Some "ENOENT")
       then throw (Error ("File not found: " +:+ filePath))
       else throw error).

Definition _mockDownloadFile (fileId destination : string) (options : Options)
  : M (Storage R * World) string :=
  self <- this ;;
  match get fileId (files self) with
  | None =>
      await in_world (Fs.writeFile destination
                        (Buffer_from ("Mock content for file ID: " +:+ fileId))) ;;
      ret destination
  | Some fileInfo =>
      await in_world (Fs.writeFile destination (mf_content fileInfo)) ;;
      ret destination
  end.

Definition downloadFile (fileId destination : string) (options : Options)
  : M (Storage R * World) string :=
  try_catch
    (await in_world (Fs.ensureDir (Path.dirname destination)) ;;
     self <- this ;;
     if decide (storageType self = "ipfs") then
       match usingMock self, ipfs self with
       | false, Some r =>
           try_catch
             (chunks <- on_ipfs r (ipfs_cat client fileId options) ;;
              let fileContent := concat chunks in
              await in_world (Fs.writeFile destination fileContent) ;;
              ret destination)
             (λ error, _mockDownloadFile fileId destination options)
       | _, _ => _mockDownloadFile fileId destination options
       end
     else throw (Error ("Download not implemented for storage type: "
                        +:+ storageType self)))
    (λ error, throw (Error ("Failed to download file: " +:+ message error))).

Definition _mockDeleteFile (fileId : string) (options : Options)
  : M (Storage R * World) bool :=
  self <- this ;;
  match get fileId (files self) with
  | Some fileInfo =>
      await in_world (Fs.remove (mf_path fileInfo)) ;;
      await update (set_files (delete fileId)) ;;
      ret true
  | None => ret true
  end.

Definition deleteFile (fileId : string) (options : Options)
  : M (Storage R * World) bool :=
  try_catch
    (self <- this ;;
     if decide (storageType self = "ipfs") then
       match usingMock self, ipfs self with
       | false, Some r =>
           try_catch
             (await on_ipfs r (ipfs_pin_rm client fileId options) ;;
              ret true)
             (λ error, _mockDeleteFile fileId options)
       | _, _ => _mockDeleteFile fileId options
       end
     else throw (Error ("Deletion not implemented for storage type: "
                        +:+ storageType self)))
    (λ error, throw (Error ("Failed to delete file: " +:+ message error))).

Definition _mockListFiles (options : Options) : M (Storage R * World) (list Listed) :=
  self <- this ;;
  ret ((λ file, {| l_id := mf_id file; l_size := Some (mf_size file);
                   l_createdAt := Some (mf_createdAt file); l_type := None |})
         <$> values (files self)).

Definition listFiles (options : Options) : M (Storage R * World) (list Listed) :=
  try_catch
    (self <- this ;;
     if decide (storageType self = "ipfs") then
       match usingMock self, ipfs self with
       | false, Some r =>
           try_catch
             (pins <- on_ipfs r (ipfs_pin_ls client options) ;;
              ret ((λ pin : string * string,
                      {| l_id := pin.1; l_size := None; l_createdAt := None;
                         l_type := Some pin.2 |}) <$> pins))
             (λ error, _mockListFiles options)
       | _, _ => _mockListFiles options
       end
     else throw (Error ("List not implemented for storage type: "
                        +:+ storageType self)))
    (λ error, throw (Error ("Failed to list files: " +:+ message error))).
End WithClient.

End Storage.

(** ** The [uuid] package *)

Module Uuid.

Definition hex_digit (n : N) : ascii :=
  match n with
  | 0 => "0" | 1 => "1" | 2 => "2" | 3 => "3" | 4 => "4" | 5 => "5" | 6 => "6"
  | 7 => "7" | 8 => "8" | 9 => "9" | 10 => "a" | 11 => "b" | 12 => "c"
  | 13 => "d" | 14 => "e" | _ => "f"
  end%N%char.

(** Two lower-case hexadecimal digits. *)
Definition byte_hex (b : byte) (rest : string) : string :=
  String (hex_digit (Byte.to_N b / 16)) (String (hex_digit (Byte.to_N b mod 16)) rest).

Definition octet (n : N) : byte := default x00 (Byte.of_N n).

Fixpoint hex (bs : Buffer) (rest : string) : string :=
  match bs with
  | [] => rest
  | b :: bs' => byte_hex b (hex bs' rest)
  end.

(** The canonical 8-4-4-4-12 text of sixteen octets. *)
Definition stringify (bs : Buffer) : string :=
  hex (take 4 bs) (String "-" (hex (take 2 (drop 4 bs)) (String "-"
    (hex (take 2 (drop 6 bs)) (String "-" (hex (take 2 (drop 8 bs)) (String "-"
      (hex (take 6 (drop 10 bs)) EmptyString)))))))).

(** [v4()]: sixteen random octets with the version and variant bits
    forced ([rnds[6] = rnds[6] & 0x0f | 0x40], [rnds[8] = rnds[8] & 0x3f | 0x80]). *)
Definition v4 : M World string :=
  rnds <- Crypto.randomBytes 16 ;;
  let rnds := alter (λ b, octet (N.lor (N.land (Byte.to_N b) 15) 64)) 6 rnds in
  let rnds := alter (λ b, octet (N.lor (N.land (Byte.to_N b) 63) 128)) 8 rnds in
  ret (stringify rnds).

End Uuid.

(** ** [lib/fileManager.js] *)

Module FileManager.

(** The four methods the resolver calls on its [storage] object; both
    [Storage] and the test suite's mock satisfy it. *)
Class StorageProvider (S : Type) : Type := mkStorageProvider {
  storage_uploadFile : string → Options → M (S * World) string;
  storage_downloadFile : string → string → Options → M (S * World) string;
  storage_deleteFile : string → Options → M (S * World) bool;
  storage_listFiles : Options → M (S * World) (list Storage.Listed)
}.

(** A value of the [fileRegistry] map. *)
Record FileInfo : Type := mkFileInfo {
  id : string;
  storageId : string;
  name : string;
  size : nat;
  fi_contentType : string;
  createdAt : N;
  fi_encrypted : bool
}.

(** The fields of a [FileManager] instance. *)
Record FileManager (S : Type) : Type := mkFileManager {
  storage : S;
  fileRegistry : Map FileInfo;
  tempDir : string
}.
Arguments mkFileManager {S}.
Arguments storage {S}.
Arguments fileRegistry {S}.
Arguments tempDir {S}.

Section WithStorage.
Context {S : Type} `{!StorageProvider S}.

Definition set_fileRegistry (f : Map FileInfo → Map FileInfo) (fm : FileManager S)
  : FileManager S :=
  {| storage := storage fm; fileRegistry := f (fileRegistry fm); tempDir := tempDir fm |}.

(** Calls a method of [this.storage]. *)
Definition on_storage {A} (m : M (S * World) A) : M (FileManager S * World) A :=
  λ '(fm, w), let '(res, (s', w')) := m (storage fm, w) in
              (res, ({| storage := s'; fileRegistry := fileRegistry fm;
                        tempDir := tempDir fm |}, w')).

(** [new FileManager(storage)] *)
Definition new (storage : S) : M World (FileManager S) :=
  let tempDir := Path.join os_tmpdir "aetherdrive-tmp" in
  await Fs.ensureDir tempDir ;;
  ret {| storage := storage; fileRegistry := []; tempDir := tempDir |}.

Definition generateFileId : M (FileManager S * World) string := in_world Uuid.v4.

Definition uploadFile (filePath : string) (options : Options)
  : M (FileManager S * World) string :=
  try_catch
    (await in_world (Fs.access filePath) ;;
     storageId <- on_storage (storage_uploadFile filePath options) ;;
     (* [options.fileId || this.generateFileId()] *)
     fileId <- match fileId options with
               | Some (String c s) => ret (String c s)
               | Some EmptyString | None => generateFileId
               end ;;
     size <- in_world (Fs.stat_size filePath) ;;
     createdAt <- in_world now ;;
     await update (set_fileRegistry (set fileId
       {| id := fileId; storageId := storageId; name := Path.basename filePath;
          size := size;
          fi_contentType := or_string (contentType options) "application/octet-stream";
          createdAt := createdAt; fi_encrypted := or_false (encrypted options) |})) ;;
     ret fileId)
    (λ error, throw (Error ("Failed to upload file: " +:+ message error))).

Definition downloadFile (fileId destination : string) (options : Options)
  : M (FileManager S * World) string :=
  try_catch
    (self <- this ;;
     match get fileId (fileRegistry self) with
     | None => on_storage (storage_downloadFile fileId destination options)
     | Some fileInfo =>
         on_storage (storage_downloadFile (storageId fileInfo) destination options)
     end)
    (λ error, throw (Error ("Failed to download file: " +:+ message error))).

Definition deleteFile (fileId : string) (options : Options)
  : M (FileManager S * World) bool :=
  try_catch
    (self <- this ;;
     match get fileId (fileRegistry self) with
     | None => on_storage (storage_deleteFile fileId options)
     | Some fileInfo =>
         result <- on_storage (storage_deleteFile (storageId fileInfo) options) ;;
         await update (set_fileRegistry (delete fileId)) ;;
         ret result
     end)
    (λ error, throw (Error ("Failed to delete file: " +:+ message error))).

Definition listFiles (options : Options) : M (FileManager S * World) (list FileInfo) :=
  try_catch
    (self <- this ;;
     let files := values (fileRegistry self) in
     ret files)
    (λ error, throw (Error ("Failed to list files: " +:+ message error))).

Definition getTempFilePath (prefix : string) : M (FileManager S * World) string :=
  self <- this ;;
  fresh <- generateFileId ;;
  ret (Path.join (tempDir self) (prefix +:+ "-" +:+ fresh)).
End WithStorage.

(** The registry as the methods leave it: every record carries the key
    it is stored under. *)
Definition keyed (registry : Map FileInfo) : Prop :=
  ∀ k v, (k, v) ∈ registry → id v = k.

(** No record is stored under [fileId]. *)
Definition absent {S} (fileId : string) (fm : FileManager S) : Prop :=
  keyed (fileRegistry fm) ∧ get fileId (fileRegistry fm) = None.

(** [lib/storage.js] as the resolver's storage object. *)
Definition Storage_provider {R} (client : Storage.IpfsClient R)
  (sha256_hex : Buffer → string) : StorageProvider (Storage.Storage R) :=
  {| storage_uploadFile := Storage.uploadFile client sha256_hex;
     storage_downloadFile := Storage.downloadFile client;
     storage_deleteFile := Storage.deleteFile client;
     storage_listFiles := Storage.listFiles client |}.

End FileManager.

(** ** Stand-ins for the external primitives

    Small executable instances of the primitives the code imports, used
    to run the model on concrete files. *)

Module Sample.

(** A block function that is its own inverse: exclusive or with the
    first sixteen octets of the key. *)
Definition block (key blk : Buffer) : Buffer := Crypto.xor_buf blk (take 16 key).

(** A key-derivation stand-in of the right output length. *)
Definition kdf (password : string) (salt : Buffer) (iterations : N) (keylen : nat)
  (digest : string) : Buffer :=
  take keylen (Buffer_from password ++ salt ++ replicate keylen x00).

(** A digest stand-in: the hexadecimal text of the content itself. *)
Definition digest_hex (content : Buffer) : string := Uuid.hex content EmptyString.

(** An IPFS client whose node is unreachable: every call throws. *)
Definition offline : Storage.IpfsClient () :=
  {| Storage.ipfs_add := λ _ _, throw (Error "connect ECONNREFUSED");
     Storage.ipfs_cat := λ _ _, throw (Error "connect ECONNREFUSED");
     Storage.ipfs_pin_rm := λ _ _, throw (Error "connect ECONNREFUSED");
     Storage.ipfs_pin_ls := λ _, throw (Error "connect ECONNREFUSED") |}.

(** A random tape and a world holding one 54-octet text file. *)
Definition tape (i : nat) : byte := Crypto.byte_of_nat (i * 7 + 3).

Definition text54 : Buffer :=
  Buffer_from "This file holds fifty-four octets of plain text, ok?!.".

Definition world54 : World :=
  {| fs := {[ "/data/a.txt" := text54 ]}; rng := tape; clock := 1700000000000 |}.

(** A storage instance running on the mock store, as constructed when
    the client library is not installed. *)
Definition mock_storage : Storage.Storage () :=
  {| Storage.storageType := "ipfs"; Storage.tempDir := "/tmp/aetherdrive-storage-0";
     Storage.files := []; Storage.usingMock := true; Storage.ipfs := None |}.

Definition manager : FileManager.FileManager (Storage.Storage ()) :=
  {| FileManager.storage := mock_storage; FileManager.fileRegistry := [];
     FileManager.tempDir := "/tmp/aetherdrive-tmp" |}.

(** The resolver's storage object: [lib/storage.js] with the offline
    client. *)
Definition provider : FileManager.StorageProvider (Storage.Storage ()) :=
  FileManager.Storage_provider offline digest_hex.

(** A world holding a file too short to be an envelope. *)
Definition short_world : World :=
  {| fs := {[ "/data/short.enc" := Buffer_from "too short" ]}; rng := tape;
     clock := 1700000000000 |}.

(** The world after [text54] was encrypted into [/data/a.bin], the
    envelope written there, and the world after decrypting it in place. *)
Definition sealed_world : World :=
  (Encryption.encryptFile block kdf "/data/a.txt" "pw1"
     {| Encryption.outputPath := Some "/data/a.bin" |} world54).2.

Definition envelope54 : Buffer := default [] (fs sealed_world !! "/data/a.bin").

Definition opened_world : World :=
  (Encryption.decryptFile block kdf "/data/a.bin" "pw1" Encryption.no_options
     sealed_world).2.

(** The resolver after an upload under the id [custom], and after that
    record was deleted again. *)
Definition custom_options : Options :=
  {| fileId := Some "custom"; contentType := None; encrypted := None |}.

Definition uploaded : FileManager.FileManager (Storage.Storage ()) * World :=
  (@FileManager.uploadFile _ provider "/data/a.txt" custom_options (manager, world54)).2.

Definition deleted : FileManager.FileManager (Storage.Storage ()) * World :=
  (@FileManager.deleteFile _ provider "custom" no_options uploaded).2.

End Sample.

(** ** [fs-extra]'s [copy] *)

Module FsExtra.

Definition SAME_PATH : JsError :=
  Error "Source and destination must not be the same.".

(** [fs.copy(src, dest)] on files: the source must exist and must not be
    the destination; an existing destination is overwritten. *)
Definition copy (src dest : string) : M World () :=
  λ w, match fs w !! src with
       | None => (Throw (Fs.ENOENT "lstat" src), w)
       | Some content =>
           if decide (src = dest) then (Throw SAME_PATH, w)
           else (Ok (), set_fs (insert dest content) w)
       end.

End FsExtra.

(** ** The test suite's [mock/mockStorage.js] *)

Module MockStorage.

(** An entry of the mock's [files] map; the content stays on disk. *)
Record Stored : Type := mkStored {
  st_id : string;
  st_path : string;
  st_originalPath : string;
  st_size : nat;
  st_createdAt : N
}.

Record MockStorage : Type := mkMockStorage {
  files : Map Stored;
  tempDir : string
}.

Definition set_files (f : Map Stored → Map Stored) (s : MockStorage) : MockStorage :=
  {| files := f (files s); tempDir := tempDir s |}.

Section WithDigest.
Variable sha256_hex : Buffer → string.

(** [new MockStorage()] *)
Definition new : M World MockStorage :=
  stamp <- now ;;
  let tempDir := Path.join os_tmpdir ("aetherdrive-mock-storage-" +:+ pretty stamp) in
  await Fs.ensureDir tempDir ;;
  ret {| files := []; tempDir := tempDir |}.

Definition generateFileId (content : Buffer) : string :=
  "mock-" +:+ String.substring 0 8 (sha256_hex content).

Definition uploadFile (filePath : string) (options : Options)
  : M (MockStorage * World) string :=
  try_catch
    (await in_world (Fs.access filePath) ;;
     fileContent <- in_world (Fs.readFile filePath) ;;
     let fileId := or_string (fileId options) (generateFileId fileContent) in
     self <- this ;;
     let storagePath := Path.join (tempDir self) fileId in
     await in_world (FsExtra.copy filePath storagePath) ;;
     createdAt <- in_world now ;;
     await update (set_files (set fileId
       {| st_id := fileId; st_path := storagePath; st_originalPath := filePath;
          st_size := length fileContent; st_createdAt := createdAt |})) ;;
     ret fileId)
    (λ error,
       if decide (code error = Some "ENOENT")
       then throw (Error ("File not found: " +:+ filePath))
       else throw (Error ("Failed to upload file: " +:+ message error))).

Definition downloadFile (fileId destination : string) (options : Options)
  : M (MockStorage * World) string :=
  try_catch
    (await in_world (Fs.ensureDir (Path.dirname destination)) ;;
     self <- this ;;
     match get fileId (files self) with
     | None =>
         await in_world (Fs.writeFile destination
                           (Buffer_from ("Mock content for file ID: " +:+ fileId))) ;;
         ret destination
     | Some fileInfo =>
         await in_world (FsExtra.copy (st_path fileInfo) destination) ;;
         ret destination
     end)
    (λ error, throw (Error ("Failed to download file: " +:+ message error))).

Definition deleteFile (fileId : string) (options : Options)
  : M (MockStorage * World) bool :=
  try_catch
    (self <- this ;;
     match get fileId (files self) with
     | Some fileInfo =>
         await in_world (Fs.remove (st_path fileInfo)) ;;
         await update (set_files (delete fileId)) ;;
         ret true
     | None => ret true
     end)
    (λ error, throw (Error ("Failed to delete file: " +:+ message error))).

Definition listFiles (options : Options) : M (MockStorage * World) (list Storage.Listed) :=
  try_catch
    (self <- this ;;
     ret ((λ file, {| Storage.l_id := st_id file; Storage.l_size := Some (st_size file);
                      Storage.l_createdAt := Some (st_createdAt file);
                      Storage.l_type := None |})
            <$> values (files self)))
    (λ error, throw (Error ("Failed to list files: " +:+ message error))).

(** The mock as the resolver's storage object. *)
Definition provider : FileManager.StorageProvider MockStorage :=
  {| FileManager.storage_uploadFile := uploadFile;
     FileManager.storage_downloadFile := downloadFile;
     FileManager.storage_deleteFile := deleteFile;
     FileManager.storage_listFiles := listFiles |}.
End WithDigest.

End MockStorage.

(** ** The test suite's mock of [ipfs-http-client] *)

Module MockIpfs.

Record Pin : Type := mkPin { pin_cid : string; pin_type : string }.

(** The fields of a [MockIpfs] instance: where each CID's content lies,
    and the pins. *)
Record MockIpfs : Type := mkMockIpfs {
  files : Map string;
  pins : Map Pin;
  tempDir : string
}.

(** The options [unpinFile] reads. *)
Record UnpinOptions : Type := mkUnpinOptions { removeFile : bool }.

(** [const chunkSize = 1024] *)
Definition chunkSize : nat := 1024.

(** The loop of [cat]: [while (offset < content.length)], yielding
    [content.slice(offset, end)] with [end = min(offset + chunkSize,
    content.length)]; [fuel] bounds the number of turns. *)
Fixpoint chunks_from (fuel : nat) (content : Buffer) (offset : nat) : list Buffer :=
  match fuel with
  | 0 => []
  | S fuel' =>
      if decide (offset < length content) then
        let stop := Nat.min (offset + chunkSize) (length content) in
        take (stop - offset) (drop offset content) :: chunks_from fuel' content stop
      else []
  end.

(** Every turn advances [offset], so [content.length] turns are enough. *)
Definition chunks (content : Buffer) : list Buffer :=
  chunks_from (length content) content 0.

Section WithDigest.
Variable sha256_hex : Buffer → string.

(** [new MockIpfs()], what [create()] returns. *)
Definition create : M World MockIpfs :=
  stamp <- now ;;
  let tempDir := Path.join os_tmpdir ("mock-ipfs-" +:+ pretty stamp) in
  await Fs.ensureDir tempDir ;;
  ret {| files := []; pins := []; tempDir := tempDir |}.

Definition generateCid (content : Buffer) : string :=
  "QmMock" +:+ String.substring 0 32 (sha256_hex content).

(** [add(content)]; the result's [path] and [cid] are the same string. *)
Definition add (content : Buffer) : M (MockIpfs * World) string :=
  let cid := generateCid content in
  self <- this ;;
  let filePath := Path.join (tempDir self) cid in
  await in_world (Fs.writeFile filePath content) ;;
  await update (λ s, {| files := set cid filePath (files s);
                        pins := set cid {| pin_cid := cid; pin_type := "recursive" |} (pins s);
                        tempDir := tempDir s |}) ;;
  ret cid.

(** [cat(cid)], as the chunks a [for await] loop collects. *)
Definition cat (cid : string) : M (MockIpfs * World) (list Buffer) :=
  self <- this ;;
  match get cid (files self) with
  | None | Some EmptyString => ret [Buffer_from ("Mock content for " +:+ cid)]
  | Some filePath =>
      content <- in_world (Fs.readFile filePath) ;;
      ret (chunks content)
  end.

Definition unpinFile (cid : string) (options : UnpinOptions) : M (MockIpfs * World) () :=
  self <- this ;;
  match get cid (pins self) with
  | None => ret ()
  | Some _ =>
      await update (λ s, {| files := files s; pins := delete cid (pins s);
                            tempDir := tempDir s |}) ;;
      match removeFile options, get cid (files self) with
      | true, Some filePath =>
          await in_world (Fs.remove filePath) ;;
          update (λ s, {| files := delete cid (files s); pins := pins s;
                          tempDir := tempDir s |})
      | _, _ => ret ()
      end
  end.

(** [listPins()], as the pairs of [cid.toString()] and [type] it yields. *)
Definition listPins : M (MockIpfs * World) (list (string * string)) :=
  self <- this ;;
  ret ((λ entry : string * Pin, (entry.1, pin_type entry.2)) <$> pins self).
End WithDigest.

End MockIpfs.

(** ** [index.js] *)

Module AetherDrive.

(** The constructor's [options]; a missing [storageType] defaults to
    ['ipfs'] (a destructuring default: only [undefined] selects it). *)
Record Config : Type := mkConfig { cfg_storageType : option string }.

(** An [AetherDrive] instance. [this.storage] and
    [this.fileManager.storage] are one object, held here once;
    [this.encryption] has no fields. *)
Record AetherDrive (R : Type) : Type := mkAetherDrive {
  fileManager : FileManager.FileManager (Storage.Storage R)
}.
Arguments mkAetherDrive {R}.
Arguments fileManager {R}.

Definition storage {R} (drive : AetherDrive R) : Storage.Storage R :=
  FileManager.storage (fileManager drive).

Section WithLibraries.
Context {R : Type}.
Variable aes256_encrypt_block : Buffer → Buffer → Buffer.
Variable aes256_decrypt_block : Buffer → Buffer → Buffer.
Variable pbkdf2Sync : string → Buffer → N → nat → string → Buffer.
Variable client : Storage.IpfsClient R.
Variable sha256_hex : Buffer → string.

(** Calls a method of [this.fileManager]. *)
Definition on_fileManager {A}
    (m : M (FileManager.FileManager (Storage.Storage R) * World) A)
  : M (AetherDrive R * World) A :=
  λ '(drive, w), let '(res, (fm', w')) := m (fileManager drive, w) in
                 (res, ({| fileManager := fm' |}, w')).

(** [new AetherDrive(options)]; [create] as for [Storage.new]. *)
Definition new (create : option (Result R)) (options : Config) : M World (AetherDrive R) :=
  let storageType := default "ipfs" (cfg_storageType options) in
  storage <- Storage.new create storageType ;;
  fileManager <- FileManager.new storage ;;
  ret {| fileManager := fileManager |}.

Definition uploadFile (filePath : string) (options : Options)
  : M (AetherDrive R * World) string :=
  on_fileManager
    (@FileManager.uploadFile _ (FileManager.Storage_provider client sha256_hex)
       filePath options).

Definition downloadFile (fileId destination : string) (options : Options)
  : M (AetherDrive R * World) string :=
  on_fileManager
    (@FileManager.downloadFile _ (FileManager.Storage_provider client sha256_hex)
       fileId destination options).

Definition encryptFile (filePath encryptionKey : string) (options : Encryption.Options)
  : M (AetherDrive R * World) string :=
  in_world (Encryption.encryptFile aes256_encrypt_block pbkdf2Sync
              filePath encryptionKey options).

Definition decryptFile (filePath encryptionKey : string) (options : Encryption.Options)
  : M (AetherDrive R * World) string :=
  in_world (Encryption.decryptFile aes256_decrypt_block pbkdf2Sync
              filePath encryptionKey options).

Definition deleteFile (fileId : string) (options : Options)
  : M (AetherDrive R * World) bool :=
  on_fileManager
    (@FileManager.deleteFile _ (FileManager.Storage_provider client sha256_hex)
       fileId options).

Definition listFiles (options : Options)
  : M (AetherDrive R * World) (list FileManager.FileInfo) :=
  on_fileManager (FileManager.listFiles options).
End WithLibraries.

End AetherDrive.

(** ** More sample data *)

Module Fixtures.

(** A world holding a two-octet note. *)
Definition note : Buffer := Buffer_from "hi".

Definition note_world : World :=
  {| fs := {[ "/n.txt" := note ]}; rng := Sample.tape; clock := 1700000000000 |}.

(** A world holding a 40-octet file: a header and half a block. *)
Definition ragged : Buffer := replicate 40 x00.

Definition ragged_world : World :=
  {| fs := {[ "/r.enc" := ragged ]}; rng := Sample.tape; clock := 1700000000000 |}.

(** A world holding three files: two with the same content, and one
    whose content differs from theirs after the first four octets. *)
Definition trio_world : World :=
  {| fs := <["/data/c.txt" := Buffer_from "same-A"]>
             (<["/data/b.txt" := Buffer_from "same-B"]>
                {[ "/data/a.txt" := Buffer_from "same-A" ]});
     rng := Sample.tape; clock := 1700000000000 |}.

(** An IPFS client whose node answers a given number of calls and is
    unreachable afterwards. *)
Definition answering {A} (a : A) : M nat A :=
  λ budget, match budget with
            | 0 => (Throw (Error "connect ECONNREFUSED"), 0)
            | S rest => (Ok a, rest)
            end.

Definition flaky : Storage.IpfsClient nat :=
  {| Storage.ipfs_add := λ _ _, answering "QmSample";
     Storage.ipfs_cat := λ _ _, answering [];
     Storage.ipfs_pin_rm := λ _ _, answering ();
     Storage.ipfs_pin_ls := λ _, answering [] |}.

(** A storage instance holding such a client with one call left. *)
Definition online_storage : Storage.Storage nat :=
  {| Storage.storageType := "ipfs"; Storage.tempDir := "/tmp/aetherdrive-storage-0";
     Storage.files := []; Storage.usingMock := false; Storage.ipfs := Some 1 |}.

(** Two uploads into the mock store, of [a.txt] and then of [b.txt]. *)
Definition stored_a : Result string * (Storage.Storage () * World) :=
  Storage.uploadFile Sample.offline Sample.digest_hex "/data/a.txt" no_options
    (Sample.mock_storage, trio_world).

Definition stored_b : Result string * (Storage.Storage () * World) :=
  Storage.uploadFile Sample.offline Sample.digest_hex "/data/b.txt" no_options
    (stored_a.2.1, stored_a.2.2).

(** Two uploads through the resolver, of [a.txt] and then of [c.txt]. *)
Definition registered_a
  : Result string * (FileManager.FileManager (Storage.Storage ()) * World) :=
  @FileManager.uploadFile _ Sample.provider "/data/a.txt" no_options
    (Sample.manager, trio_world).

Definition registered_c
  : Result string * (FileManager.FileManager (Storage.Storage ()) * World) :=
  @FileManager.uploadFile _ Sample.provider "/data/c.txt" no_options
    (registered_a.2.1, registered_a.2.2).

(** The storage upload the resolver makes for [a.txt] of [world54]. *)
Definition stored_54 : Result string * (Storage.Storage () * World) :=
  Storage.uploadFile Sample.offline Sample.digest_hex "/data/a.txt" no_options
    (Sample.mock_storage, Sample.world54).

(** The mock store after uploads of [a.txt] under the ids [first] and
    [second]. *)
Definition stored_twice : Result string * (Storage.Storage () * World) :=
  Storage.uploadFile Sample.offline Sample.digest_hex "/data/a.txt"
    {| fileId := Some "second"; contentType := None; encrypted := None |}
    (Storage.uploadFile Sample.offline Sample.digest_hex "/data/a.txt"
       {| fileId := Some "first"; contentType := None; encrypted := None |}
       (Sample.mock_storage, Sample.world54)).2.



(** A facade on the mock store. *)
Definition drive : AetherDrive.AetherDrive () :=
  {| AetherDrive.fileManager := Sample.manager |}.

(** The test suite's storage mock, new, and after an upload under the
    id [custom]. *)
Definition shelf : MockStorage.MockStorage :=
  {| MockStorage.files := []; MockStorage.tempDir := "/tmp/aetherdrive-mock-storage-0" |}.

Definition shelved : Result string * (MockStorage.MockStorage * World) :=
  MockStorage.uploadFile Sample.digest_hex "/data/a.txt" Sample.custom_options
    (shelf, Sample.world54).

End Fixtures.

(** ** Invariants of the two maps *)

Module Invariants.

(** The mock store of [lib/storage.js] as its methods leave it: every
    record is stored under its own id, at its path in the instance's
    temporary directory, with the size of its content, and no id occurs
    twice. *)
Definition consistent {R} (s : Storage.Storage R) : Prop :=
  NoDup (keys (Storage.files s))
  ∧ ∀ k f, (k, f) ∈ Storage.files s →
      Storage.mf_id f = k
      ∧ Storage.mf_size f = length (Storage.mf_content f)
      ∧ Storage.mf_path f = Path.join (Storage.tempDir s) k.

(** The same without the path: every record is stored under its own id
    with the size of its content, and no id occurs twice. *)
Definition filed {R} (s : Storage.Storage R) : Prop :=
  NoDup (keys (Storage.files s))
  ∧ ∀ k f, (k, f) ∈ Storage.files s →
      Storage.mf_id f = k ∧ Storage.mf_size f = length (Storage.mf_content f).





(** The resolver's registry as its methods leave it: every record is
    stored under its own id and no id occurs twice. *)
Definition well_formed (registry : Map FileManager.FileInfo) : Prop :=
  NoDup (keys registry) ∧ FileManager.keyed registry.

End Invariants.

(** * Properties *)

(** ** Running monadic code *)

(** Unfolds the plumbing of a method body so that it computes. *)
Ltac run :=
  unfold try_catch, bind, ret, throw, in_world, this, update, now,
    Fs.access, Fs.readFile, Fs.writeFile, Fs.stat_size, Fs.ensureDir, Fs.remove;
  simpl.

(** ** Blocks, chaining and padding *)

Section CodecFacts.
Import Crypto.

Lemma xor_byte_cancel a b : xor_byte (xor_byte a b) b = a.
Proof.
  unfold xor_byte. rewrite Byte.to_bits_of_bits.
  rewrite <- (Byte.of_bits_to_bits a) at 2. f_equal.
  destruct (Byte.to_bits a) as (a0 & a1 & a2 & a3 & a4 & a5 & a6 & a7).
  destruct (Byte.to_bits b) as (b0 & b1 & b2 & b3 & b4 & b5 & b6 & b7).
  simpl. by rewrite !xorb_assoc, !xorb_nilpotent, !xorb_false_r.
Qed.

Lemma xor_buf_length a b : length b = length a → length (xor_buf a b) = length a.
Proof. intros Hl. unfold xor_buf. rewrite length_zip_with. lia. Qed.

Lemma xor_buf_cancel a b : length a = length b → xor_buf (xor_buf a b) b = a.
Proof.
  unfold xor_buf. revert b. induction a as [|x a IH]; intros [|y b] Hl; simplify_eq/=.
  - done.
  - by rewrite xor_byte_cancel, IH.
Qed.

Lemma blocks_length n data : length (blocks n data) = n.
Proof. revert data. induction n as [|n IH]; intros data; simpl; [done|]. by rewrite IH. Qed.

Lemma blocks_whole n data :
  16 * n ≤ length data → Forall (λ b, length b = 16) (blocks n data).
Proof.
  revert data. induction n as [|n IH]; intros data Hn; simpl; constructor.
  - rewrite length_take. lia.
  - apply IH. rewrite length_drop. lia.
Qed.

Lemma concat_blocks n data : concat (blocks n data) = take (16 * n) data.
Proof.
  revert data. induction n as [|n IH]; intros data.
  - by rewrite Nat.mul_0_r, take_0.
  - cbn [blocks concat]. rewrite IH.
    replace (16 * S n) with (16 + 16 * n) by lia.
    by rewrite <- take_take_drop.
Qed.

Lemma blocks_concat bs :
  Forall (λ b, length b = 16) bs → blocks (length bs) (concat bs) = bs.
Proof.
  induction 1 as [|b bs Hb _ IH]; simpl; [done|].
  rewrite take_app_length' by done. rewrite drop_app_length' by done.
  by rewrite IH.
Qed.

Lemma concat_whole_length bs :
  Forall (λ b : Buffer, length b = 16) bs → length (concat bs) = 16 * length bs.
Proof. induction 1 as [|b bs Hb _ IH]; simpl; [done|]. rewrite length_app. lia. Qed.

Lemma byte_of_nat_to_nat k : k ≤ 255 → Byte.to_nat (byte_of_nat k) = k.
Proof.
  intros Hk. unfold byte_of_nat.
  destruct (Byte.of_nat k) as [b|] eqn:E; simpl.
  - by apply Byte.to_of_nat.
  - apply Byte.of_nat_None_iff in E. lia.
Qed.

Lemma forallb_replicate (f : byte → bool) k b :
  f b = true → forallb f (replicate k b) = true.
Proof. intros Hf. induction k; simpl; [done|]. by rewrite Hf. Qed.

(** Stripping the padding that [cipher_final] adds gives back the
    pending octets. *)
Lemma unpad_pad (rest : Buffer) :
  length rest < 16 →
  unpad (rest ++ replicate (16 - length rest)
                   (byte_of_nat (16 - length rest))) = Some rest.
Proof.
  intros Hr. set (k := 16 - length rest). unfold unpad.
  assert (Hk : 1 ≤ k ≤ 16) by (unfold k; lia).
  destruct k as [|k'] eqn:Ek; [lia|]. rewrite replicate_S_end.
  rewrite app_assoc, last_snoc. cbn zeta.
  rewrite byte_of_nat_to_nat by lia.
  rewrite decide_False by lia.
  rewrite <- app_assoc, <- replicate_S_end.
  replace (16 - S k') with (length rest) by lia.
  rewrite drop_app_length, take_app_length.
  rewrite forallb_replicate; [done|].
  by apply Byte.byte_dec_lb.
Qed.
End CodecFacts.

Section CbcFacts.
Import Crypto.

Variable E D : Buffer → Buffer → Buffer.
(** What the code relies on from AES-256: blocks stay blocks, and
    decryption under the same key undoes encryption. *)
Hypothesis block_length : ∀ k b, length k = 32 → length b = 16 → length (E k b) = 16.
Hypothesis block_inverse : ∀ k b, length k = 32 → length b = 16 → D k (E k b) = b.

Lemma cbc_encrypt_snoc k prev bs b :
  cbc_encrypt E k prev (bs ++ [b]) =
  let c := E k (xor_buf b (cbc_encrypt E k prev bs).2) in
  ((cbc_encrypt E k prev bs).1 ++ [c], c).
Proof.
  revert prev. induction bs as [|x bs IH]; intros prev; simpl; [done|].
  rewrite IH. by destruct (cbc_encrypt E k _ bs).
Qed.

Lemma cbc_encrypt_count k prev bs : length (cbc_encrypt E k prev bs).1 = length bs.
Proof.
  revert prev. induction bs as [|x bs IH]; intros prev; simpl; [done|].
  specialize (IH (E k (xor_buf x prev))).
  destruct (cbc_encrypt E k _ bs). simpl in *. by rewrite IH.
Qed.

Lemma cbc_encrypt_whole k prev bs :
  length k = 32 → length prev = 16 → Forall (λ b, length b = 16) bs →
  Forall (λ c, length c = 16) (cbc_encrypt E k prev bs).1
  ∧ length (cbc_encrypt E k prev bs).2 = 16.
Proof.
  intros Hk Hp Hbs. revert prev Hp.
  induction Hbs as [|x bs Hx _ IH]; intros prev Hp; simpl; [by split|].
  assert (Hc : length (E k (xor_buf x prev)) = 16).
  { apply block_length; [done|]. rewrite xor_buf_length; congruence. }
  destruct (IH _ Hc) as [IH1 IH2].
  destruct (cbc_encrypt E k _ bs). simpl in *. split; [by constructor|done].
Qed.

Lemma cbc_decrypt_encrypt k prev bs :
  length k = 32 → length prev = 16 → Forall (λ b, length b = 16) bs →
  (cbc_decrypt D k prev (cbc_encrypt E k prev bs).1).1 = bs.
Proof.
  intros Hk Hp Hbs. revert prev Hp.
  induction Hbs as [|x bs Hx _ IH]; intros prev Hp; simpl; [done|].
  assert (Hx' : length (xor_buf x prev) = 16) by (rewrite xor_buf_length; congruence).
  specialize (IH (E k (xor_buf x prev)) (block_length k _ Hk Hx')).
  destruct (cbc_encrypt E k _ bs) as [cs l]. simpl in *.
  destruct (cbc_decrypt D k _ cs) as [bs' l']. simpl in *. subst bs'.
  rewrite block_inverse by done. by rewrite xor_buf_cancel by congruence.
Qed.

Lemma rest_short (p : Buffer) : length (drop (16 * (length p `div` 16)) p) < 16.
Proof.
  rewrite length_drop.
  pose proof (Nat.div_mod_eq (length p) 16).
  pose proof (Nat.mod_upper_bound (length p) 16). lia.
Qed.

Lemma padded_whole p : Forall (λ b, length b = 16) (padded p).
Proof.
  unfold padded. apply Forall_app. split.
  - apply blocks_whole. pose proof (Nat.div_mod_eq (length p) 16). lia.
  - constructor; [|done]. pose proof (rest_short p).
    rewrite length_app, length_replicate. lia.
Qed.

Lemma padded_count p : length (padded p) = length p `div` 16 + 1.
Proof. unfold padded. by rewrite length_app, blocks_length. Qed.

(** One [update] on a fresh cipher followed by [final] is CBC over the
    padded input. *)
Lemma update_final key iv p :
  let c := cipher_update E {| c_key := key; c_chain := iv; c_pending := [] |} p in
  c.1 ++ cipher_final E c.2 = concat (cbc_encrypt E key iv (padded p)).1.
Proof.
  unfold cipher_update, cipher_final, padded. simpl.
  rewrite cbc_encrypt_snoc.
  destruct (cbc_encrypt E key iv (blocks _ p)) as [cs l]. simpl.
  by rewrite concat_app; simpl; rewrite app_nil_r.
Qed.

Lemma update_final_length key iv p :
  length key = 32 → length iv = 16 →
  let c := cipher_update E {| c_key := key; c_chain := iv; c_pending := [] |} p in
  length (c.1 ++ cipher_final E c.2) = 16 * (length p `div` 16 + 1).
Proof.
  intros Hk Hiv. cbv zeta. rewrite update_final.
  destruct (cbc_encrypt_whole key iv (padded p) Hk Hiv (padded_whole p)) as [Hw _].
  by rewrite (concat_whole_length _ Hw), cbc_encrypt_count, padded_count.
Qed.

(** One [update] on a fresh decipher followed by [final] recovers the
    input of [update_final]. *)
Lemma decipher_update_final Σ key iv p (σ : Σ) :
  length key = 32 → length iv = 16 →
  let c := cipher_update E {| c_key := key; c_chain := iv; c_pending := [] |} p in
  let d := decipher_update D
             {| d_key := key; d_chain := iv; d_pending := []; d_held := None |}
             (c.1 ++ cipher_final E c.2) in
  ∃ tail, decipher_final d.2 σ = (Ok tail, σ) ∧ d.1 ++ tail = p.
Proof.
  intros Hk Hiv. cbv zeta. rewrite update_final.
  destruct (cbc_encrypt_whole key iv (padded p) Hk Hiv (padded_whole p)) as [Hw _].
  pose proof (cbc_decrypt_encrypt key iv (padded p) Hk Hiv (padded_whole p)) as Hdec.
  pose proof (concat_whole_length _ Hw) as Hlen.
  pose proof (cbc_encrypt_count key iv (padded p)) as Hcount.
  rewrite padded_count in Hcount.
  set (cs := (cbc_encrypt E key iv (padded p)).1) in *.
  unfold decipher_update.
  destruct (concat cs) as [|c0 ct] eqn:Ect; [simpl in Hlen; lia|].
  rewrite <- Ect in *. simpl d_pending. rewrite app_nil_l.
  replace (length (concat cs) `div` 16) with (length cs)
    by (rewrite Hlen, Nat.mul_comm, Nat.div_mul; lia).
  rewrite blocks_concat by done. cbn [d_key d_chain d_held from_option].
  destruct (cbc_decrypt D key iv cs) as [bs l]. simpl in Hdec. subst bs.
  rewrite drop_ge by lia.
  unfold padded. rewrite removelast_last, last_snoc. simpl.
  rewrite concat_blocks. unfold decipher_final. simpl.
  rewrite unpad_pad by apply rest_short.
  eexists. split; [done|]. apply take_drop.
Qed.
End CbcFacts.

(** ** The envelope codec *)

Section EncryptionFacts.
Import Crypto Encryption.

Variable E D : Buffer → Buffer → Buffer.
Variable kdf : string → Buffer → N → nat → string → Buffer.

Hypothesis block_length : ∀ k b, length k = 32 → length b = 16 → length (E k b) = 16.
Hypothesis block_inverse : ∀ k b, length k = 32 → length b = 16 → D k (E k b) = b.
(** [pbkdf2Sync] returns the 32 octets it is asked for. *)
Hypothesis kdf_length : ∀ pw s, length (kdf pw s 100000%N 32 "sha256") = 32.

(** What a call of [encryptFile] on an existing file does: it draws the
    IV, then the salt, and writes [salt ++ iv ++ ciphertext]. *)
Lemma encryptFile_run path w opts world p :
  fs world !! path = Some p →
  let iv := rng world <$> seq 0 16 in
  let salt := (λ i, rng world (16 + i)) <$> seq 0 16 in
  let c := cipher_update E
             {| c_key := kdf w salt 100000%N 32 "sha256"; c_chain := iv;
                c_pending := [] |} p in
  let out := or_string (outputPath opts) (path +:+ ".enc") in
  encryptFile E kdf path w opts world =
  (Ok out,
   {| fs := <[out := salt ++ iv ++ c.1 ++ cipher_final E c.2]> (fs world);
      rng := λ i, rng world (16 + (16 + i)); clock := clock world |}).
Proof.
  intros Hp. cbv zeta.
  unfold encryptFile, generateKey, randomBytes, createCipheriv. run.
  rewrite Hp. simpl. rewrite decide_False by (rewrite kdf_length; lia).
  simpl. rewrite Hp.
  by destruct (cipher_update E _ p).
Qed.

(** The three slices [decryptFile] takes of an envelope. *)
Lemma header_salt (salt iv ct : Buffer) :
  length salt = 16 → take 16 (salt ++ iv ++ ct) = salt.
Proof. intros. by rewrite take_app_length'. Qed.

Lemma header_iv (salt iv ct : Buffer) :
  length salt = 16 → length iv = 16 → take 16 (drop 16 (salt ++ iv ++ ct)) = iv.
Proof. intros. rewrite drop_app_length' by done. by rewrite take_app_length'. Qed.

Lemma header_rest (salt iv ct : Buffer) :
  length salt = 16 → length iv = 16 → drop 32 (salt ++ iv ++ ct) = ct.
Proof.
  intros. rewrite app_assoc. apply drop_app_length'. rewrite length_app. lia.
Qed.

(** What a call of [decryptFile] does on a file that holds at least
    the 32 header octets. *)
Lemma decryptFile_run path w opts world (salt iv ct : Buffer) :
  fs world !! path = Some (salt ++ iv ++ ct) → length salt = 16 → length iv = 16 →
  let d := decipher_update D
             {| d_key := kdf w salt 100000%N 32 "sha256"; d_chain := iv;
                d_pending := []; d_held := None |} ct in
  let out := or_string (outputPath opts) (replace_enc_suffix path) in
  decryptFile D kdf path w opts world =
  match (decipher_final d.2 world).1 with
  | Ok tail => (Ok out, set_fs (insert out (d.1 ++ tail)) world)
  | Throw e =>
      (Throw (Error ("Failed to decrypt file: "
                     +:+ "Decryption failed, possibly due to incorrect password: "
                     +:+ message e)), world)
  end.
Proof.
  intros Hp Hsalt Hiv. cbv zeta.
  unfold decryptFile, generateKey, createDecipheriv. run.
  rewrite Hp. simpl. rewrite Hp. simpl.
  rewrite (header_salt salt iv ct), (header_iv salt iv ct), (header_rest salt iv ct)
    by done.
  rewrite decide_False by lia. rewrite decide_False by (rewrite kdf_length; lia).
  simpl. destruct (decipher_update D _ ct) as [head d]. simpl.
  unfold decipher_final.
  destruct (d_pending d); [|done].
  destruct (d_held d); [|done].
  by destruct (unpad _).
Qed.

Lemma tape_length (f : nat → byte) n : length (f <$> seq 0 n) = n.
Proof. by rewrite length_fmap, length_seq. Qed.

(** C1. Decrypting, with the same password, the file that [encryptFile]
    wrote restores the original octets: both calls succeed, whatever
    the plaintext, the password, the output paths and the random
    octets drawn, and the decrypted file holds exactly the plaintext. *)
Theorem encrypt_decrypt_roundtrip (p : Buffer) (w path : string)
    (eopts dopts : Options) (world : World) :
  fs world !! path = Some p →
  ∃ encPath world1 decPath world2,
    encryptFile E kdf path w eopts world = (Ok encPath, world1)
    ∧ decryptFile D kdf encPath w dopts world1 = (Ok decPath, world2)
    ∧ fs world2 !! decPath = Some p.
Proof.
  intros Hp. rewrite (encryptFile_run _ w eopts _ _ Hp).
  set (iv := rng world <$> seq 0 16).
  set (salt := (λ i, rng world (16 + i)) <$> seq 0 16).
  set (key := kdf w salt 100000%N 32 "sha256").
  set (out := or_string (outputPath eopts) (path +:+ ".enc")).
  set (c := cipher_update E {| c_key := key; c_chain := iv; c_pending := [] |} p).
  set (ct := c.1 ++ cipher_final E c.2).
  set (world1 := {| fs := <[out := salt ++ iv ++ ct]> (fs world);
                    rng := λ i, rng world (16 + (16 + i)); clock := clock world |}).
  eexists out, world1, _, _. split; [done|].
  rewrite (decryptFile_run out w dopts world1 salt iv ct); cycle 1.
  { simpl. apply lookup_insert_eq. }
  { apply tape_length. }
  { apply tape_length. }
  fold key.
  destruct (decipher_update_final E D block_length block_inverse World key iv p world1)
    as (tail & Hfinal & Hplain).
  { unfold key. apply kdf_length. }
  { apply tape_length. }
  fold c ct in Hfinal, Hplain.
  rewrite Hfinal. simpl. rewrite Hplain. split; [done|].
  apply lookup_insert_eq.
Qed.

Lemma spec_ciphertextLength_blocks n :
  spec_ciphertextLength n = 16 * (n `div` 16 + 1).
Proof.
  unfold spec_ciphertextLength.
  pose proof (Nat.div_mod_eq n 16) as Hn.
  pose proof (Nat.mod_upper_bound n 16) as Hr.
  case_decide as Hm; [lia|].
  f_equal. symmetry. apply (Nat.div_unique _ _ _ (n `mod` 16 - 1)); lia.
Qed.

(** [spec_ciphertextLength n] is the least multiple of 16 above [n]. *)
Lemma spec_ciphertextLength_least n :
  (16 | spec_ciphertextLength n) ∧ n < spec_ciphertextLength n
  ∧ ∀ m, (16 | m) → n < m → spec_ciphertextLength n ≤ m.
Proof.
  rewrite spec_ciphertextLength_blocks.
  pose proof (Nat.div_mod_eq n 16) as Hn.
  pose proof (Nat.mod_upper_bound n 16) as Hr.
  split_and!.
  - exists (n `div` 16 + 1). lia.
  - lia.
  - intros m [q ->] Hlt. nia.
Qed.

(** C4. The envelope [encryptFile] writes is 32 octets longer than the
    padded ciphertext, whose length is the least multiple of 16 strictly
    above the plaintext's length; a 54-octet plaintext gives a 96-octet
    envelope. *)
Theorem envelope_length (p : Buffer) (w path : string) (opts : Options)
    (world : World) :
  fs world !! path = Some p →
  ∃ out world' envelope,
    encryptFile E kdf path w opts world = (Ok out, world')
    ∧ fs world' !! out = Some envelope
    ∧ length envelope = 32 + spec_ciphertextLength (length p)
    ∧ (16 | length envelope - 32)
    ∧ length p < length envelope - 32
    ∧ (∀ m, (16 | m) → length p < m → length envelope - 32 ≤ m)
    ∧ (length p = 54 → length envelope = 96).
Proof.
  intros Hp. rewrite (encryptFile_run _ w opts _ _ Hp).
  eexists _, _, _. split; [done|]. split; [apply lookup_insert_eq|].
  assert (Hlen : ∀ salt iv key : Buffer,
    length salt = 16 → length iv = 16 → length key = 32 →
    length (salt ++ iv ++
            (cipher_update E (mkCipher key iv []) p).1 ++
            cipher_final E (cipher_update E (mkCipher key iv []) p).2)
    = 32 + spec_ciphertextLength (length p)).
  { intros salt iv key Hs Hi Hk. rewrite !length_app, <- length_app.
    rewrite (update_final_length E block_length key iv p Hk Hi).
    rewrite spec_ciphertextLength_blocks. lia. }
  rewrite Hlen by (apply tape_length || apply kdf_length).
  replace (32 + spec_ciphertextLength (length p) - 32)
    with (spec_ciphertextLength (length p)) by lia.
  destruct (spec_ciphertextLength_least (length p)) as (Hdiv & Hlt & Hleast).
  split_and!; try done.
  intros ->. reflexivity.
Qed.

(** [decryptFile] on a file shorter than the header: the IV slice is
    not a block, the decipher is never created, nothing is written. *)
Lemma decryptFile_short path w opts world (envelope : Buffer) :
  fs world !! path = Some envelope → length envelope < 32 →
  decryptFile D kdf path w opts world =
  (Throw (Error ("Failed to decrypt file: " +:+ message ERR_CRYPTO_INVALID_IV)), world).
Proof.
  intros Hp Hshort. unfold decryptFile, generateKey, createDecipheriv. run.
  rewrite Hp. simpl. rewrite Hp. simpl.
  by rewrite decide_True by (rewrite length_take, length_drop; lia).
Qed.

(** [decryptFile] on a file that holds the whole header. *)
Lemma decryptFile_long path w opts world (envelope : Buffer) :
  fs world !! path = Some envelope → 32 ≤ length envelope →
  let d := decipher_update D
             {| d_key := kdf w (take 16 envelope) 100000%N 32 "sha256";
                d_chain := take 16 (drop 16 envelope);
                d_pending := []; d_held := None |} (drop 32 envelope) in
  let out := or_string (outputPath opts) (replace_enc_suffix path) in
  decryptFile D kdf path w opts world =
  match (decipher_final d.2 world).1 with
  | Ok tail => (Ok out, set_fs (insert out (d.1 ++ tail)) world)
  | Throw e =>
      (Throw (Error ("Failed to decrypt file: "
                     +:+ "Decryption failed, possibly due to incorrect password: "
                     +:+ message e)), world)
  end.
Proof.
  intros Hp Hlong. apply decryptFile_run.
  - rewrite Hp. f_equal.
    rewrite <- (take_drop 16 envelope) at 1. f_equal.
    rewrite <- (take_drop 16 (drop 16 envelope)) at 1. f_equal.
    by rewrite drop_drop.
  - rewrite length_take. lia.
  - rewrite length_take, length_drop. lia.
Qed.

(** C3. A file shorter than the 32-octet header makes [decryptFile]
    fail with the malformed-input error, which is not the error it
    throws when the cipher rejects the content of a file that holds a
    whole header; the latter is never the malformed-input error. *)
Theorem short_envelope_rejected (envelope : Buffer) (w path : string)
    (opts : Options) (world : World) :
  fs world !! path = Some envelope →
  (length envelope < 32 →
     ∃ e, decryptFile D kdf path w opts world = (Throw e, world)
          ∧ MalformedInput e = true ∧ DecryptionFailure e = false)
  ∧ (32 ≤ length envelope →
     ∀ e world', decryptFile D kdf path w opts world = (Throw e, world') →
          DecryptionFailure e = true ∧ MalformedInput e = false).
Proof.
  intros Hp. split.
  - intros Hshort.
    exists (Error ("Failed to decrypt file: " +:+ message ERR_CRYPTO_INVALID_IV)).
    split; [by eapply decryptFile_short|]. by vm_compute.
  - intros Hlong e world'. rewrite (decryptFile_long _ w opts _ _ Hp Hlong).
    destruct (decipher_final _ world).1 as [tail|e0]; [done|].
    intros [= <- <-]. split.
    + unfold DecryptionFailure. simpl.
      by destruct (message e0).
    + unfold MalformedInput. apply bool_decide_eq_false. simpl. discriminate.
Qed.


Lemma string_length_app (a b : string) :
  String.length (a +:+ b) = String.length a + String.length b.
Proof. induction a as [|c a IH]; simpl; [done|]. by rewrite IH. Qed.

(** A path ending in [.enc] has that suffix replaced by [.dec]. *)
Lemma replace_enc_suffix_enc pre : replace_enc_suffix (pre +:+ ".enc") = pre +:+ ".dec".
Proof.
  induction pre as [|c pre IH]; [done|].
  change (replace_enc_suffix (String c pre +:+ ".enc"))
    with (if decide (String c (pre +:+ ".enc") = ".enc") then ".dec"
          else String c (replace_enc_suffix (pre +:+ ".enc"))).
  rewrite IH. rewrite decide_False; [done|].
  intros H. apply (f_equal String.length) in H.
  simpl in H. rewrite string_length_app in H. simpl in H. lia.
Qed.

(** Any other path is left as it is. *)
Lemma replace_enc_suffix_other path :
  (∀ pre, path ≠ pre +:+ ".enc") → replace_enc_suffix path = path.
Proof.
  induction path as [|c path IH]; intros Hno; [done|].
  change (replace_enc_suffix (String c path))
    with (if decide (String c path = ".enc") then ".dec"
          else String c (replace_enc_suffix path)).
  rewrite decide_False by (apply (Hno EmptyString)).
  f_equal. apply IH. intros pre ->. by apply (Hno (String c pre)).
Qed.

Lemma enc_ne_dec pre : pre +:+ ".dec" ≠ pre +:+ ".enc".
Proof. intros H. by apply (inj (String.append pre)) in H. Qed.

(** C10. With no [outputPath] option, [decryptFile] on a path that does
    not end in [.enc] writes to the input path: a successful call
    returns the input path and replaces the envelope stored there by
    the decrypted octets. A path [pre.enc] is decrypted to the distinct
    path [pre.dec] and the input file is left as it was. *)
Theorem decrypt_default_output_path (envelope : Buffer) (w path : string)
    (opts : Options) (world world' : World) (out : string) :
  outputPath opts = None →
  fs world !! path = Some envelope →
  decryptFile D kdf path w opts world = (Ok out, world') →
  let d := decipher_update D
             {| d_key := kdf w (take 16 envelope) 100000%N 32 "sha256";
                d_chain := take 16 (drop 16 envelope);
                d_pending := []; d_held := None |} (drop 32 envelope) in
  ∃ tail,
    (decipher_final d.2 world).1 = Ok tail
    ∧ ((∀ pre, path ≠ pre +:+ ".enc") →
         out = path ∧ fs world' = <[path := d.1 ++ tail]> (fs world))
    ∧ (∀ pre, path = pre +:+ ".enc" →
         out = pre +:+ ".dec" ∧ out ≠ path
         ∧ fs world' = <[out := d.1 ++ tail]> (fs world)
         ∧ fs world' !! path = Some envelope).
Proof.
  intros Hopt Hp Hrun. cbv zeta.
  destruct (decide (length envelope < 32)) as [Hshort|Hlong].
  { by rewrite (decryptFile_short _ w opts _ _ Hp Hshort) in Hrun. }
  rewrite (decryptFile_long _ w opts _ _ Hp) in Hrun by lia.
  destruct (decipher_final _ world).1 as [tail|e]; [|done].
  injection Hrun as <- <-. rewrite Hopt. simpl.
  exists tail. split; [done|]. split.
  - intros Hno. by rewrite replace_enc_suffix_other.
  - intros pre ->. rewrite replace_enc_suffix_enc.
    split_and!; try done; [apply enc_ne_dec|].
    rewrite lookup_insert_ne by apply enc_ne_dec. done.
Qed.
End EncryptionFacts.

(** ** Key derivation *)

Section KeyDerivation.
Import Encryption.














(** The functions written out above, on published test values: the
    digest of [abc] (FIPS 180-4), and PBKDF2 of [password] and [salt]
    with one iteration. *)
Example sha256_abc :
  Uuid.hex (Sha256.sha256 (Buffer_from "abc")) EmptyString
  = "ba7816bf8f01cfea414140de5dae2223b00361a396177a9cb410ff61f20015ad".
Proof. by vm_compute. Qed.

Example pbkdf2_one_iteration :
  Uuid.hex (Pbkdf2.pbkdf2Sync "password" (Buffer_from "salt") 1 32 "sha256") EmptyString
  = "120fb6cffcf8b32c43e7225256c4f837a86548c92ccc35480805987cb70be17b".
Proof. by vm_compute. Qed.

End KeyDerivation.

(** ** JavaScript maps *)

Section MapFacts.
Context {V : Type}.
Implicit Types (m : Map V) (k : string) (v : V).

Lemma get_set_eq k v m : get k (set k v m) = Some v.
Proof.
  induction m as [|[k' v'] m IH]; simpl.
  - by rewrite decide_True.
  - destruct (decide (k' = k)) as [->|Hne]; simpl.
    + by rewrite decide_True.
    + by rewrite decide_False.
Qed.

Lemma get_set_ne k k' v m : k ≠ k' → get k' (set k v m) = get k' m.
Proof.
  intros Hne. induction m as [|[k0 v0] m IH]; simpl.
  - by rewrite decide_False.
  - destruct (decide (k0 = k)) as [->|Hk]; simpl.
    + by rewrite !decide_False.
    + by rewrite IH.
Qed.

Lemma get_delete_eq k m : get k (delete k m) = None.
Proof.
  unfold delete. induction m as [|[k' v'] m IH]; [done|].
  rewrite filter_cons. simpl. destruct (decide (k' ≠ k)); simpl; [|done].
  by rewrite decide_False.
Qed.

Lemma get_delete_ne k k' m : k ≠ k' → get k' (delete k m) = get k' m.
Proof.
  intros Hne. unfold delete. induction m as [|[k0 v0] m IH]; [done|].
  rewrite filter_cons. simpl. destruct (decide (k0 ≠ k)) as [Hk|Hk]; simpl.
  - by rewrite IH.
  - apply dec_stable in Hk as ->. by rewrite decide_False.
Qed.

Lemma elem_of_delete k kv m : kv ∈ delete k m ↔ kv ∈ m ∧ kv.1 ≠ k.
Proof. unfold delete. rewrite list_elem_of_filter. tauto. Qed.

Lemma elem_of_set k v kv m : kv ∈ set k v m → kv = (k, v) ∨ kv ∈ m.
Proof.
  induction m as [|[k' v'] m IH]; simpl.
  - rewrite list_elem_of_singleton. tauto.
  - destruct (decide (k' = k)) as [->|Hne]; rewrite !elem_of_cons; [tauto|].
    intros [->|Hin]; [by right; left|]. destruct (IH Hin); auto.
Qed.

Lemma get_None_elem_of k m : get k m = None ↔ ∀ v, (k, v) ∉ m.
Proof.
  induction m as [|[k' v'] m IH]; simpl.
  - split; [|done]. intros _ v. apply not_elem_of_nil.
  - destruct (decide (k' = k)) as [->|Hne].
    + split; [done|]. intros H. exfalso. apply (H v'). left.
    + rewrite IH. split.
      * intros H v. rewrite elem_of_cons. intros [[=]|?]; [done|]. by eapply H.
      * intros H v Hin. apply (H v). by right.
Qed.

(** A key added to an empty map and then a different one: two entries,
    in insertion order. *)
Lemma set_two k1 v1 k2 v2 :
  k1 ≠ k2 → set k2 v2 (set k1 v1 []) = [(k1, v1); (k2, v2)].
Proof. intros Hne. simpl. by rewrite decide_False. Qed.
End MapFacts.

(** ** The storage capability *)

Section StorageFacts.
Import Storage.
Context {R : Type}.
Variable client : IpfsClient R.
Variable sha256_hex : Buffer → string.
Implicit Types (s : Storage R) (w : World).

(** What the mock store's download writes for [fileId]: the stored
    content, or a placeholder text when the id is unknown. *)
Lemma mockDownloadFile_run fileId destination options s w :
  _mockDownloadFile fileId destination options (s, w) =
  (Ok destination,
   (s, set_fs (insert destination
                 match get fileId (files s) with
                 | Some fileInfo => mf_content fileInfo
                 | None => Buffer_from ("Mock content for file ID: " +:+ fileId)
                 end) w)).
Proof. unfold _mockDownloadFile. run. by destruct (get fileId (files s)). Qed.

Lemma downloadFile_mock fileId destination options s w :
  storageType s = "ipfs" → usingMock s = true →
  downloadFile client fileId destination options (s, w) =
  _mockDownloadFile fileId destination options (s, w).
Proof.
  intros Htype Hmock. rewrite mockDownloadFile_run.
  unfold downloadFile. run. rewrite Htype, Hmock. simpl.
  pose proof (mockDownloadFile_run fileId destination options s w) as Hrun.
  destruct (_mockDownloadFile _ _ _ _) as [r σ]. by injection Hrun as -> ->.
Qed.

Lemma uploadFile_mock filePath options s w (content : Buffer) :
  storageType s = "ipfs" → usingMock s = true →
  fs w !! filePath = Some content →
  let fileId := or_string (fileId options) (_generateMockFileId sha256_hex content) in
  let storagePath := Path.join (tempDir s) fileId in
  uploadFile client sha256_hex filePath options (s, w) =
  (Ok fileId,
   (set_files (set fileId
      {| mf_id := fileId; mf_path := storagePath; mf_content := content;
         mf_originalPath := filePath; mf_size := length content;
         mf_createdAt := clock w |}) s,
    set_fs (insert storagePath content) w)).
Proof.
  intros Htype Hmock Hfile. cbv zeta.
  unfold uploadFile, _mockUploadFile. run.
  rewrite Hfile. simpl. rewrite Hfile. simpl. by rewrite Htype, Hmock.
Qed.

(** Whatever the client does, a download succeeds. *)
Lemma downloadFile_succeeds fileId destination options s w :
  storageType s = "ipfs" →
  ∃ σ, downloadFile client fileId destination options (s, w) = (Ok destination, σ).
Proof.
  intros Htype. unfold downloadFile, on_ipfs. run. rewrite Htype. simpl.
  destruct (usingMock s), (ipfs s) as [r|]; simpl;
    try (rewrite mockDownloadFile_run; by eexists).
  destruct (ipfs_cat client fileId options r) as [[chunks|e] r']; simpl; [by eexists|].
  rewrite mockDownloadFile_run. by eexists.
Qed.

(** C2 (amended). A download never fails with a not-found error: it
    succeeds for every id, whatever the client does.  On the mock store,
    downloading an id held in the store writes exactly the octets stored
    under it, which after an upload are the octets of the uploaded file;
    downloading an id that was never uploaded writes the placeholder
    [Mock content for file ID: <id>]. *)
Theorem download_known_or_placeholder s w options :
  storageType s = "ipfs" → usingMock s = true →
  (∀ fileId destination (s0 : Storage R) w0,
     storageType s0 = "ipfs" →
     ∃ σ, downloadFile client fileId destination options (s0, w0) = (Ok destination, σ))
  ∧ (∀ fileId destination fileInfo,
     get fileId (files s) = Some fileInfo →
     downloadFile client fileId destination options (s, w) =
     (Ok destination, (s, set_fs (insert destination (mf_content fileInfo)) w)))
  ∧ (∀ fileId destination,
       get fileId (files s) = None →
       downloadFile client fileId destination options (s, w) =
       (Ok destination,
        (s, set_fs (insert destination
                      (Buffer_from ("Mock content for file ID: " +:+ fileId))) w)))
  ∧ (∀ filePath uploadOptions (content : Buffer) fileId s' w' destination,
       fs w !! filePath = Some content →
       uploadFile client sha256_hex filePath uploadOptions (s, w) = (Ok fileId, (s', w')) →
       downloadFile client fileId destination options (s', w') =
       (Ok destination, (s', set_fs (insert destination content) w'))).
Proof.
  intros Htype Hmock. split_and!.
  - intros fileId destination s0 w0. apply downloadFile_succeeds.
  - intros fileId destination fileInfo Hget.
    rewrite downloadFile_mock, mockDownloadFile_run by done. by rewrite Hget.
  - intros fileId destination Hget.
    rewrite downloadFile_mock, mockDownloadFile_run by done. by rewrite Hget.
  - intros filePath uploadOptions content fileId s' w' destination Hfile.
    rewrite (uploadFile_mock _ uploadOptions _ _ _ Htype Hmock Hfile).
    intros [= <- <- <-].
    rewrite downloadFile_mock, mockDownloadFile_run by done.
    simpl. by rewrite get_set_eq.
Qed.
End StorageFacts.

(** ** The identity resolver *)

Section FileManagerFacts.
Import FileManager.
Context {S : Type} `{!StorageProvider S}.
Implicit Types (fm : FileManager S) (w : World).

(** A generated identifier is 36 characters long. *)
Lemma v4_length w r w' : Uuid.v4 w = (Ok r, w') → String.length r = 36.
Proof. unfold Uuid.v4, Crypto.randomBytes. run. by intros [= <- <-]. Qed.

(** C6. When the storage object's upload throws, [uploadFile] throws
    that error under its own prefix and the registry is what it was;
    more generally no failing upload changes the registry, and the
    registry changes only in a call whose storage upload succeeded. *)
Theorem upload_failure_keeps_registry filePath options fm w :
  (∀ e s' w',
     is_Some (fs w !! filePath) →
     storage_uploadFile filePath options (storage fm, w) = (Throw e, (s', w')) →
     uploadFile filePath options (fm, w) =
     (Throw (Error ("Failed to upload file: " +:+ message e)),
      ({| storage := s'; fileRegistry := fileRegistry fm; tempDir := tempDir fm |}, w')))
  ∧ (∀ e fm' w',
       uploadFile filePath options (fm, w) = (Throw e, (fm', w')) →
       fileRegistry fm' = fileRegistry fm)
  ∧ (∀ r fm' w',
       uploadFile filePath options (fm, w) = (r, (fm', w')) →
       fileRegistry fm' ≠ fileRegistry fm →
       ∃ storageId s' w1,
         storage_uploadFile filePath options (storage fm, w) = (Ok storageId, (s', w1))).
Proof.
  split_and!.
  - intros e s' w' [content Hfile] Hup.
    unfold uploadFile, on_storage. run. by rewrite Hfile, Hup.
  - intros e fm' w'. unfold uploadFile, on_storage, generateFileId. run.
    destruct (fs w !! filePath); simpl; [|by intros [= _ <- _]].
    destruct (storage_uploadFile _ _ _) as [[sid|e0] [s1 w1]]; simpl;
      [|by intros [= _ <- _]].
    destruct (fileId options) as [[|c i]|]; simpl;
      (destruct (fs _ !! filePath); simpl; [done|by intros [= _ <- _]]).
  - intros r fm' w'. unfold uploadFile, on_storage. run.
    destruct (fs w !! filePath); simpl; [|by intros [= _ <- _]].
    destruct (storage_uploadFile _ _ _) as [[sid|e0] [s1 w1]]; simpl; [by eauto|].
    by intros [= _ <- _].
Qed.

(** C7. [downloadFile] never fails on its own account: it hands the
    storage object the stored [storageId] when the id is registered and
    the id itself when it is not, returns what the storage object
    returns, and rethrows under its prefix what the storage object
    throws. *)
Theorem download_resolves_or_passes_through fileId destination options fm w :
  downloadFile fileId destination options (fm, w) =
  let backendId := match get fileId (fileRegistry fm) with
                   | Some fileInfo => storageId fileInfo
                   | None => fileId
                   end in
  let '(outcome, (s', w')) :=
    storage_downloadFile backendId destination options (storage fm, w) in
  (match outcome with
   | Ok path => Ok path
   | Throw e => Throw (Error ("Failed to download file: " +:+ message e))
   end,
   ({| storage := s'; fileRegistry := fileRegistry fm; tempDir := tempDir fm |}, w')).
Proof.
  unfold downloadFile, on_storage. run.
  destruct (get fileId (fileRegistry fm)); simpl;
    by destruct (storage_downloadFile _ _ _ _) as [[r|e] [s' w']].
Qed.

Lemma keyed_delete k (registry : Map FileInfo) : keyed registry → keyed (delete k registry).
Proof. intros Hk k' v [Hin _]%elem_of_delete. by apply Hk. Qed.

Lemma keyed_set k v (registry : Map FileInfo) :
  id v = k → keyed registry → keyed (set k v registry).
Proof. intros Hv Hk k' v' [[= -> ->]|Hin]%elem_of_set; [done|by apply Hk]. Qed.

(** What [listFiles] returns carries no id missing from the registry. *)
Lemma values_absent fileId (registry : Map FileInfo) f :
  keyed registry → get fileId registry = None → f ∈ values registry → id f ≠ fileId.
Proof.
  intros Hk Hget Hin Hid. unfold values in Hin.
  apply list_elem_of_fmap in Hin as ([k v] & -> & Hin). simpl in Hid.
  rewrite (Hk _ _ Hin) in Hid. subst k.
  by apply (proj1 (get_None_elem_of fileId registry) Hget v).
Qed.

Lemma listFiles_run options fm w :
  listFiles options (fm, w) = (Ok (values (fileRegistry fm)), (fm, w)).
Proof. done. Qed.

(** What each method does to the registry. *)
Lemma downloadFile_registry fileId destination options fm w r fm' w' :
  downloadFile fileId destination options (fm, w) = (r, (fm', w')) →
  fileRegistry fm' = fileRegistry fm.
Proof.
  unfold downloadFile, on_storage. run.
  destruct (get fileId (fileRegistry fm)); simpl;
    destruct (storage_downloadFile _ _ _ _) as [[r0|e] [s1 w1]]; simpl;
    by intros [= _ <- _].
Qed.

Lemma deleteFile_registry fileId options fm w r fm' w' :
  deleteFile fileId options (fm, w) = (r, (fm', w')) →
  fileRegistry fm' = fileRegistry fm
  ∨ (∃ result, r = Ok result) ∧ is_Some (get fileId (fileRegistry fm))
    ∧ fileRegistry fm' = delete fileId (fileRegistry fm).
Proof.
  unfold deleteFile, on_storage. run.
  destruct (get fileId (fileRegistry fm)) as [fileInfo|]; simpl;
    destruct (storage_deleteFile _ _ _) as [[r0|e] [s1 w1]]; simpl;
    intros [= <- <- _]; eauto 6.
Qed.

Lemma uploadFile_registry filePath options fm w r fm' w' :
  uploadFile filePath options (fm, w) = (r, (fm', w')) →
  match r with
  | Ok fileId =>
      ∃ fileInfo, id fileInfo = fileId
                  ∧ fileRegistry fm' = set fileId fileInfo (fileRegistry fm)
  | Throw _ => fileRegistry fm' = fileRegistry fm
  end.
Proof.
  unfold uploadFile, on_storage, generateFileId. run.
  destruct (fs w !! filePath); simpl; [|by intros [= <- <- _]].
  destruct (storage_uploadFile _ _ _) as [[sid|e0] [s1 w1]]; simpl;
    [|by intros [= <- <- _]].
  destruct (fileId options) as [[|c i]|]; simpl;
    (destruct (fs _ !! filePath); simpl; intros [= <- <- _]; [|done]);
    (eexists; split; [|done]; done).
Qed.

(** [keyed] is an invariant of the resolver: it holds of a new instance
    and every method preserves it. *)
Lemma keyed_invariant fm w :
  (∀ storage w0 fm0 w1, new storage w0 = (Ok fm0, w1) → keyed (fileRegistry fm0))
  ∧ (keyed (fileRegistry fm) →
     (∀ filePath o r fm' w',
        uploadFile filePath o (fm, w) = (r, (fm', w')) → keyed (fileRegistry fm'))
     ∧ (∀ i destination o r fm' w',
          downloadFile i destination o (fm, w) = (r, (fm', w')) →
          keyed (fileRegistry fm'))
     ∧ (∀ i o r fm' w',
          deleteFile i o (fm, w) = (r, (fm', w')) → keyed (fileRegistry fm'))
     ∧ (∀ o r fm' w',
          listFiles o (fm, w) = (r, (fm', w')) → keyed (fileRegistry fm'))).
Proof.
  split.
  - intros storage w0 fm0 w1. unfold new. run. intros [= <- _] k v Hin.
    by apply elem_of_nil in Hin.
  - intros Hkeyed. split_and!.
    + intros filePath o r fm' w' Hrun. apply uploadFile_registry in Hrun.
      destruct r as [i|e]; [|by rewrite Hrun].
      destruct Hrun as (fileInfo & Hid & ->). by apply keyed_set.
    + intros i destination o r fm' w' Hrun.
      by rewrite (downloadFile_registry _ _ _ _ _ _ _ _ Hrun).
    + intros i o r fm' w' Hrun.
      destruct (deleteFile_registry _ _ _ _ _ _ _ Hrun) as [->|(_ & _ & ->)]; [done|].
      by apply keyed_delete.
    + intros o r fm' w'. rewrite listFiles_run. by intros [= _ <- _].
Qed.

(** Until a record is stored under [fileId] again, by an upload that
    returns it, every method leaves it absent and no listing shows it. *)
Lemma absent_preserved fileId fm w :
  absent fileId fm →
  (∀ i destination o r fm' w',
     downloadFile i destination o (fm, w) = (r, (fm', w')) → absent fileId fm')
  ∧ (∀ i o r fm' w',
       deleteFile i o (fm, w) = (r, (fm', w')) → absent fileId fm')
  ∧ (∀ o, ∃ files,
       listFiles o (fm, w) = (Ok files, (fm, w))
       ∧ ∀ f, f ∈ files → id f ≠ fileId)
  ∧ (∀ filePath o r fm' w',
       uploadFile filePath o (fm, w) = (r, (fm', w')) →
       r ≠ Ok fileId → absent fileId fm').
Proof.
  intros [Hkeyed Hget]. split_and!.
  - intros i destination o r fm' w' Hrun. unfold absent.
    by rewrite (downloadFile_registry _ _ _ _ _ _ _ _ Hrun).
  - intros i o r fm' w' Hrun. unfold absent.
    destruct (deleteFile_registry _ _ _ _ _ _ _ Hrun) as [->|(_ & _ & ->)]; [done|].
    split; [by apply keyed_delete|].
    destruct (decide (i = fileId)) as [->|Hne].
    + apply get_delete_eq.
    + by rewrite get_delete_ne.
  - intros o. rewrite listFiles_run. eexists. split; [done|].
    intros f. by apply values_absent.
  - intros filePath o r fm' w' Hrun Hr. unfold absent.
    apply uploadFile_registry in Hrun.
    destruct r as [i|e]; [|by rewrite Hrun].
    destruct Hrun as (fileInfo & Hid & ->).
    split; [by apply keyed_set|].
    rewrite get_set_ne; [done|]. by intros ->.
Qed.

(** C8. After [deleteFile] has succeeded on a registered id, the record
    keyed by it is gone from the registry and no entry of [listFiles]
    carries that id; this stays so through every later download,
    delete and listing, and through every upload that does not return
    that id. *)
Theorem delete_removes_record fileId options fm w fileInfo result fm' w' :
  keyed (fileRegistry fm) →
  get fileId (fileRegistry fm) = Some fileInfo →
  deleteFile fileId options (fm, w) = (Ok result, (fm', w')) →
  fileRegistry fm' = delete fileId (fileRegistry fm)
  ∧ absent fileId fm'
  ∧ (∀ o, ∃ files,
       listFiles o (fm', w') = (Ok files, (fm', w'))
       ∧ ∀ f, f ∈ files → id f ≠ fileId)
  ∧ (∀ w1,
       (∀ i destination o r fm2 w2,
          downloadFile i destination o (fm', w1) = (r, (fm2, w2)) → absent fileId fm2)
       ∧ (∀ i o r fm2 w2,
            deleteFile i o (fm', w1) = (r, (fm2, w2)) → absent fileId fm2)
       ∧ (∀ filePath o r fm2 w2,
            uploadFile filePath o (fm', w1) = (r, (fm2, w2)) →
            r ≠ Ok fileId → absent fileId fm2)).
Proof.
  intros Hkeyed Hget Hrun.
  assert (Hreg : fileRegistry fm' = delete fileId (fileRegistry fm)).
  { revert Hrun. unfold deleteFile, on_storage. run. rewrite Hget. simpl.
    destruct (storage_deleteFile _ _ _) as [[r0|e] [s1 w1]]; simpl; [|done].
    by intros [= _ <- _]. }
  assert (Habsent : absent fileId fm').
  { unfold absent. rewrite Hreg. split; [by apply keyed_delete|apply get_delete_eq]. }
  split_and!; try done.
  - intros o. by destruct (absent_preserved fileId fm' w' Habsent) as (_ & _ & Hl & _).
  - intros w1.
    destruct (absent_preserved fileId fm' w1 Habsent) as (Hd & Hx & _ & Hu).
    by split_and!.
Qed.

(** With no id, or an empty one, in the options the id returned is a
    generated one. *)
Lemma uploadFile_generated filePath options fm w r fm' w' :
  or_string (fileId options) "" = "" →
  uploadFile filePath options (fm, w) = (Ok r, (fm', w')) →
  String.length r = 36.
Proof.
  intros Hnone. unfold uploadFile, on_storage, generateFileId. run.
  destruct (fs w !! filePath); simpl; [|done].
  destruct (storage_uploadFile _ _ _) as [[sid|e0] [s1 w1]]; simpl; [|done].
  destruct (fileId options) as [[|c i]|]; simpl; try done;
    (destruct (fs _ !! filePath); simpl; [|done]); by intros [= <- _ _].
Qed.

Lemma uploadFile_supplied c i filePath options fm w r fm' w' :
  fileId options = Some (String c i) →
  uploadFile filePath options (fm, w) = (Ok r, (fm', w')) →
  r = String c i.
Proof.
  intros Hid. unfold uploadFile, on_storage. run. rewrite Hid.
  destruct (fs w !! filePath); simpl; [|done].
  destruct (storage_uploadFile _ _ _) as [[sid|e0] [s1 w1]]; simpl; [|done].
  destruct (fs _ !! filePath); simpl; [|done]. by intros [= <- _ _].
Qed.

(** C9 (amended). A non-empty id supplied in the options is the id
    [uploadFile] returns and the key of the record it stores; and on a
    resolver with an empty registry, uploading a file without an id and
    then with the id [custom] leaves exactly two records, under two
    distinct ids. *)
Theorem upload_returns_supplied_id :
  (∀ c i filePath options fm w storageId s1 w1 (content : Buffer),
     fileId options = Some (String c i) →
     is_Some (fs w !! filePath) →
     storage_uploadFile filePath options (storage fm, w) = (Ok storageId, (s1, w1)) →
     fs w1 !! filePath = Some content →
     ∃ fm', uploadFile filePath options (fm, w) = (Ok (String c i), (fm', w1))
            ∧ ∃ fileInfo, get (String c i) (fileRegistry fm') = Some fileInfo
                          ∧ id fileInfo = String c i)
  ∧ (∀ c i filePath options fm w r fm' w',
       fileId options = Some (String c i) →
       uploadFile filePath options (fm, w) = (Ok r, (fm', w')) →
       r = String c i)
  ∧ (∀ filePath options fm w X fm1 w1 r fm2 w2,
       fileRegistry fm = [] →
       fileId options = Some "custom" →
       uploadFile filePath no_options (fm, w) = (Ok X, (fm1, w1)) →
       uploadFile filePath options (fm1, w1) = (Ok r, (fm2, w2)) →
       r = "custom" ∧ X ≠ "custom"
       ∧ ∃ a b, listFiles no_options (fm2, w2) = (Ok [a; b], (fm2, w2))
                ∧ id a = X ∧ id b = "custom").
Proof.
  split_and!.
  - intros c i filePath options fm w sid s1 w1 content Hid [content0 Hfile] Hup Hstat.
    unfold uploadFile, on_storage. run. rewrite Hfile, Hid, Hup. simpl.
    rewrite Hstat. simpl. eexists. split; [done|]. simpl.
    eexists. by rewrite get_set_eq.
  - apply uploadFile_supplied.
  - intros filePath options fm w X fm1 w1 r fm2 w2 Hempty Hid Hfirst Hsecond.
    pose proof (uploadFile_generated _ no_options _ _ _ _ _ eq_refl Hfirst) as Hlen.
    pose proof (uploadFile_supplied _ _ _ _ _ _ _ _ _ Hid Hsecond) as ->.
    assert (HX : X ≠ "custom") by (by intros ->).
    apply uploadFile_registry in Hfirst as (info1 & Hid1 & Hreg1).
    apply uploadFile_registry in Hsecond as (info2 & Hid2 & Hreg2).
    rewrite Hreg1, Hempty in Hreg2. rewrite set_two in Hreg2 by done.
    split_and!; try done.
    exists info1, info2. rewrite listFiles_run, Hreg2. done.
Qed.
End FileManagerFacts.

(** ** Concrete runs *)

Lemma sample_block_length k b :
  length k = 32 → length b = 16 → length (Sample.block k b) = 16.
Proof.
  intros Hk Hb. unfold Sample.block. rewrite xor_buf_length; [done|].
  rewrite length_take. lia.
Qed.

Lemma sample_block_inverse k b :
  length k = 32 → length b = 16 → Sample.block k (Sample.block k b) = b.
Proof.
  intros Hk Hb. unfold Sample.block. apply xor_buf_cancel.
  rewrite length_take. lia.
Qed.

Lemma sample_kdf_length pw s : length (Sample.kdf pw s 100000%N 32 "sha256") = 32.
Proof.
  unfold Sample.kdf. rewrite length_take, !length_app, length_replicate. lia.
Qed.

(** The 54-octet scenario: the envelope has 96 octets and decrypts, with
    the same password, to the text. *)
Example scenario_54 :
  length Sample.envelope54 = 96
  ∧ (Encryption.decryptFile Sample.block Sample.kdf "/data/a.bin" "pw1"
       Encryption.no_options Sample.sealed_world).1 = Ok "/data/a.bin"
  ∧ fs Sample.opened_world !! "/data/a.bin" = Some Sample.text54.
Proof. by vm_compute. Qed.

(** A password under which the stand-in cipher leaves a broken padding:
    the cipher rejects the content and [decryptFile] reports a
    decryption failure, writing nothing. *)
Example scenario_wrong_password :
  let sealed := (Encryption.encryptFile Sample.block Sample.kdf "/data/a.txt"
                   "correct-password" Encryption.no_options Sample.world54).2 in
  ∃ e, Encryption.decryptFile Sample.block Sample.kdf "/data/a.txt.enc"
         "correct-passworD" Encryption.no_options sealed = (Throw e, sealed)
       ∧ Encryption.DecryptionFailure e = true
       ∧ Encryption.MalformedInput e = false.
Proof. eexists. split; [by vm_compute|]. by vm_compute. Qed.

Lemma encrypt_decrypt_roundtrip_witness :
  fs Sample.world54 !! "/data/a.txt" = Some Sample.text54
  ∧ ∃ encPath world1 decPath world2,
      Encryption.encryptFile Sample.block Sample.kdf "/data/a.txt" "pw1"
        Encryption.no_options Sample.world54 = (Ok encPath, world1)
      ∧ Encryption.decryptFile Sample.block Sample.kdf encPath "pw1"
          Encryption.no_options world1 = (Ok decPath, world2)
      ∧ fs world2 !! decPath = Some Sample.text54.
Proof.
  split; [reflexivity|].
  apply (encrypt_decrypt_roundtrip Sample.block Sample.block Sample.kdf
           sample_block_length sample_block_inverse sample_kdf_length).
  reflexivity.
Defined.

Lemma short_envelope_rejected_witness :
  fs Sample.short_world !! "/data/short.enc" = Some (Buffer_from "too short")
  ∧ length (Buffer_from "too short") < 32
  ∧ ∃ e, Encryption.decryptFile Sample.block Sample.kdf "/data/short.enc" "pw1"
           Encryption.no_options Sample.short_world = (Throw e, Sample.short_world)
         ∧ Encryption.MalformedInput e = true
         ∧ Encryption.DecryptionFailure e = false.
Proof.
  split; [reflexivity|]. split; [simpl; lia|].
  apply (short_envelope_rejected Sample.block Sample.kdf sample_kdf_length
           (Buffer_from "too short") "pw1" "/data/short.enc" Encryption.no_options
           Sample.short_world); [reflexivity|simpl; lia].
Defined.

Lemma envelope_length_witness :
  fs Sample.world54 !! "/data/a.txt" = Some Sample.text54
  ∧ ∃ out world' envelope,
      Encryption.encryptFile Sample.block Sample.kdf "/data/a.txt" "pw1"
        Encryption.no_options Sample.world54 = (Ok out, world')
      ∧ fs world' !! out = Some envelope
      ∧ length envelope = 32 + Encryption.spec_ciphertextLength (length Sample.text54)
      ∧ (16 | length envelope - 32)
      ∧ length Sample.text54 < length envelope - 32
      ∧ (∀ m, (16 | m) → length Sample.text54 < m → length envelope - 32 ≤ m)
      ∧ (length Sample.text54 = 54 → length envelope = 96).
Proof.
  split; [reflexivity|].
  apply (envelope_length Sample.block Sample.kdf sample_block_length sample_kdf_length).
  reflexivity.
Defined.

Lemma decrypt_default_output_path_witness :
  Encryption.outputPath Encryption.no_options = None
  ∧ fs Sample.sealed_world !! "/data/a.bin" = Some Sample.envelope54
  ∧ Encryption.decryptFile Sample.block Sample.kdf "/data/a.bin" "pw1"
      Encryption.no_options Sample.sealed_world = (Ok "/data/a.bin", Sample.opened_world)
  ∧ ∃ tail,
      ((∀ pre, "/data/a.bin" ≠ pre +:+ ".enc") →
         "/data/a.bin" = "/data/a.bin"
         ∧ fs Sample.opened_world =
           <[ "/data/a.bin" :=
                (Crypto.decipher_update Sample.block
                   {| Crypto.d_key := Sample.kdf "pw1" (take 16 Sample.envelope54)
                                        100000%N 32 "sha256";
                      Crypto.d_chain := take 16 (drop 16 Sample.envelope54);
                      Crypto.d_pending := []; Crypto.d_held := None |}
                   (drop 32 Sample.envelope54)).1 ++ tail ]> (fs Sample.sealed_world)).
Proof.
  split; [reflexivity|]. split; [by vm_compute|]. split; [by vm_compute|].
  destruct (decrypt_default_output_path Sample.block Sample.kdf sample_kdf_length
              Sample.envelope54 "pw1" "/data/a.bin" Encryption.no_options
              Sample.sealed_world Sample.opened_world "/data/a.bin")
    as (tail & _ & Hother & _); [reflexivity|by vm_compute|by vm_compute|].
  by exists tail.
Defined.

(** Downloading an id that was never uploaded succeeds on the mock
    store and writes the placeholder. *)
Lemma download_never_uploaded_succeeds :
  get "never-uploaded" (Storage.files Sample.mock_storage) = None
  ∧ Storage.downloadFile Sample.offline "never-uploaded" "/out/file.bin" no_options
      (Sample.mock_storage, Sample.world54)
    = (Ok "/out/file.bin",
       (Sample.mock_storage,
        set_fs (insert "/out/file.bin"
                  (Buffer_from "Mock content for file ID: never-uploaded"))
          Sample.world54))
  ∧ ¬ ∃ e σ, Storage.downloadFile Sample.offline "never-uploaded" "/out/file.bin"
               no_options (Sample.mock_storage, Sample.world54) = (Throw e, σ).
Proof. split_and!; [reflexivity|reflexivity|]. by intros (e & σ & H). Qed.

(** The same on a store whose client was created but cannot reach its
    node: the failed call falls back to the mock store. *)
Example download_never_uploaded_fallback :
  (Storage.downloadFile Sample.offline "QmUnknown" "/out/file.bin" no_options
     ({| Storage.storageType := "ipfs"; Storage.tempDir := "/tmp/aetherdrive-storage-0";
         Storage.files := []; Storage.usingMock := false; Storage.ipfs := Some () |},
      Sample.world54)).1 = Ok "/out/file.bin".
Proof. reflexivity. Qed.

Lemma download_known_or_placeholder_witness :
  Storage.storageType Sample.mock_storage = "ipfs"
  ∧ Storage.usingMock Sample.mock_storage = true
  ∧ fs Sample.world54 !! "/data/a.txt" = Some Sample.text54
  ∧ ∀ fileId s' w',
      Storage.uploadFile Sample.offline Sample.digest_hex "/data/a.txt" no_options
        (Sample.mock_storage, Sample.world54) = (Ok fileId, (s', w')) →
      Storage.downloadFile Sample.offline fileId "/out/copy.txt" no_options (s', w')
      = (Ok "/out/copy.txt", (s', set_fs (insert "/out/copy.txt" Sample.text54) w')).
Proof.
  split; [reflexivity|]. split; [reflexivity|]. split; [reflexivity|].
  intros fileId s' w' Hup.
  destruct (download_known_or_placeholder Sample.offline Sample.digest_hex
              Sample.mock_storage Sample.world54 no_options eq_refl eq_refl)
    as (_ & _ & _ & Hround).
  exact (Hround "/data/a.txt" no_options Sample.text54 fileId s' w' "/out/copy.txt"
           eq_refl Hup).
Defined.

(** The pass-through of the resolver's tests: an id that was never
    registered goes to the storage object as it is, and the download
    succeeds. *)
Example scenario_pass_through :
  (@FileManager.downloadFile _ Sample.provider "direct-storage-id"
     "/out/downloaded-direct.txt" no_options (Sample.manager, Sample.world54)).1
  = Ok "/out/downloaded-direct.txt".
Proof. reflexivity. Qed.

(** An empty id in the options is not the id returned. *)
Lemma upload_empty_id_generates :
  (@FileManager.uploadFile _ Sample.provider "/data/a.txt"
     {| fileId := Some ""; contentType := None; encrypted := None |}
     (Sample.manager, Sample.world54)).1
  = Ok "030a1118-1f26-4d34-bb42-4950575e656c"
  ∧ (@FileManager.uploadFile _ Sample.provider "/data/a.txt"
       {| fileId := Some ""; contentType := None; encrypted := None |}
       (Sample.manager, Sample.world54)).1
    ≠ Ok "".
Proof. by vm_compute. Qed.

(** The two-upload scenario on the mock store. *)
Example scenario_custom_id :
  let first := @FileManager.uploadFile _ Sample.provider "/data/a.txt" no_options
                 (Sample.manager, Sample.world54) in
  let second := @FileManager.uploadFile _ Sample.provider "/data/a.txt"
                  Sample.custom_options first.2 in
  first.1 = Ok "030a1118-1f26-4d34-bb42-4950575e656c"
  ∧ second.1 = Ok "custom"
  ∧ FileManager.id <$> default [] (match (FileManager.listFiles no_options second.2).1 with
                                    | Ok files => Some files
                                    | Throw _ => None
                                    end)
    = ["030a1118-1f26-4d34-bb42-4950575e656c"; "custom"].
Proof. by vm_compute. Qed.

Lemma delete_removes_record_witness :
  FileManager.keyed (FileManager.fileRegistry Sample.uploaded.1)
  ∧ is_Some (get "custom" (FileManager.fileRegistry Sample.uploaded.1))
  ∧ (@FileManager.deleteFile _ Sample.provider "custom" no_options Sample.uploaded).1
    = Ok true
  ∧ FileManager.absent "custom" Sample.deleted.1
  ∧ ∃ files, FileManager.listFiles no_options Sample.deleted = (Ok files, Sample.deleted)
             ∧ ∀ f, f ∈ files → FileManager.id f ≠ "custom".
Proof.
  assert (Hkeyed : FileManager.keyed (FileManager.fileRegistry Sample.uploaded.1)).
  { intros k v Hin. vm_compute in Hin.
    apply list_elem_of_singleton in Hin. by simplify_eq. }
  split; [exact Hkeyed|]. split; [by vm_compute; eexists|]. split; [by vm_compute|].
  destruct (@delete_removes_record _ Sample.provider "custom" no_options
              Sample.uploaded.1 Sample.uploaded.2
              (default (FileManager.mkFileInfo "" "" "" 0 "" 0 false)
                 (get "custom" (FileManager.fileRegistry Sample.uploaded.1)))
              true Sample.deleted.1 Sample.deleted.2 Hkeyed)
    as (_ & Habsent & Hlist & _); [by vm_compute|by vm_compute|].
  split; [exact Habsent|]. apply (Hlist no_options).
Defined.

(** * Further properties *)

(** ** The envelope codec: failures, layout, default paths *)

Section EncryptionMore.
Import Crypto Encryption.

Variable E D : Buffer → Buffer → Buffer.
Variable kdf : string → Buffer → N → nat → string → Buffer.

Hypothesis block_length : ∀ k b, length k = 32 → length b = 16 → length (E k b) = 16.
Hypothesis block_inverse : ∀ k b, length k = 32 → length b = 16 → D k (E k b) = b.
Hypothesis kdf_length : ∀ pw s, length (kdf pw s 100000%N 32 "sha256") = 32.






(** X3. What a successful [encryptFile] does to the world: it writes one
    file, the envelope, at the output path (by default the input path
    followed by [.enc]) and changes no other file; the envelope starts
    with the salt, then the IV, then the CBC encryption of the padded
    plaintext under the key derived from the password and that salt;
    the IV is the first and the salt the second stretch of 16 octets
    drawn from the random generator, which is left 32 octets further. *)
Theorem encryptFile_effect path w opts world (p : Buffer) :
  fs world !! path = Some p →
  ∃ envelope world',
    let out := or_string (outputPath opts) (path +:+ ".enc") in
    encryptFile E kdf path w opts world = (Ok out, world')
    ∧ fs world' = <[out := envelope]> (fs world)
    ∧ (out ≠ path → fs world' !! path = Some p)
    ∧ take 16 envelope = (λ i, rng world (16 + i)) <$> seq 0 16
    ∧ take 16 (drop 16 envelope) = rng world <$> seq 0 16
    ∧ drop 32 envelope =
      concat (cbc_encrypt E (kdf w (take 16 envelope) 100000%N 32 "sha256")
                (take 16 (drop 16 envelope)) (padded p)).1
    ∧ (∀ i, rng world' i = rng world (32 + i))
    ∧ clock world' = clock world.
Proof.
  intros Hp. rewrite (encryptFile_run E kdf kdf_length path w opts world p Hp).
  set (iv := rng world <$> seq 0 16).
  set (salt := (λ i, rng world (16 + i)) <$> seq 0 16).
  assert (Hsalt : length salt = 16) by apply tape_length.
  assert (Hiv : length iv = 16) by apply tape_length.
  set (c := cipher_update E _ p).
  exists (salt ++ iv ++ c.1 ++ cipher_final E c.2).
  eexists. cbv zeta. split; [done|]. cbn [fs rng clock].
  rewrite header_salt, header_iv, header_rest by done.
  split_and!; try done.
  - intros Hne. by rewrite lookup_insert_ne.
  - apply update_final.
Qed.

(** Decrypting, at any path and in any world, a file that holds an
    envelope made by [encryptFile] for the same password. *)
Lemma decryptFile_sealed q w opts world (salt iv p : Buffer) :
  length salt = 16 → length iv = 16 →
  let c := cipher_update E
             {| c_key := kdf w salt 100000%N 32 "sha256"; c_chain := iv;
                c_pending := [] |} p in
  fs world !! q = Some (salt ++ iv ++ c.1 ++ cipher_final E c.2) →
  let out := or_string (outputPath opts) (replace_enc_suffix q) in
  decryptFile D kdf q w opts world = (Ok out, set_fs (insert out p) world).
Proof.
  intros Hsalt Hiv c Hq. cbv zeta.
  rewrite (decryptFile_run D kdf kdf_length q w opts world salt iv _ Hq Hsalt Hiv).
  destruct (decipher_update_final E D block_length block_inverse World
              (kdf w salt 100000%N 32 "sha256") iv p world (kdf_length _ _) Hiv)
    as (tail & Hfinal & Hplain).
  fold c in Hfinal, Hplain. rewrite Hfinal. simpl. by rewrite Hplain.
Qed.



(** The decipher after one [update] on a ciphertext that is empty or
    does not end on a block boundary: [final] reports a wrong final
    block length. *)
Lemma decipher_ragged Σ key iv (ct : Buffer) (σ : Σ) :
  ct = [] ∨ length ct `mod` 16 ≠ 0 →
  decipher_final
    (decipher_update D {| d_key := key; d_chain := iv; d_pending := []; d_held := None |}
       ct).2 σ
  = (Throw ERR_OSSL_WRONG_FINAL_BLOCK_LENGTH, σ).
Proof.
  intros [->|Hmod]; [done|].
  unfold decipher_update. destruct ct as [|b ct']; [done|].
  remember (b :: ct') as ct eqn:Hct. simpl d_pending. rewrite app_nil_l.
  destruct (cbc_decrypt D _ _ _) as [bs chain]. cbn [d_key d_chain d_held].
  destruct (drop (16 * (length ct `div` 16)) ct) as [|r rest] eqn:Hrest.
  - exfalso. apply (f_equal length) in Hrest. rewrite length_drop in Hrest.
    change (length (@nil byte)) with 0 in Hrest.
    pose proof (Nat.div_mod_eq (length ct) 16). lia.
  - done.
Qed.

(** X5. An envelope that holds the whole header but whose remaining part
    is empty or not a whole number of blocks is rejected whatever the
    password: [decryptFile] throws the decryption failure, caused by a
    wrong final block length, and writes nothing.  So only files of 32
    plus a positive multiple of 16 octets can decrypt. *)
Theorem decrypt_rejects_ragged_envelope (envelope : Buffer) (w path : string)
    (opts : Options) (world : World) :
  fs world !! path = Some envelope →
  32 ≤ length envelope →
  length envelope = 32 ∨ (length envelope - 32) `mod` 16 ≠ 0 →
  decryptFile D kdf path w opts world =
  (Throw (Error ("Failed to decrypt file: "
                 +:+ "Decryption failed, possibly due to incorrect password: "
                 +:+ message ERR_OSSL_WRONG_FINAL_BLOCK_LENGTH)), world).
Proof.
  intros Hp Hlong Hragged.
  rewrite (decryptFile_long D kdf kdf_length path w opts world envelope Hp Hlong).
  rewrite decipher_ragged; [done|].
  destruct Hragged as [H32|Hmod].
  - left. apply nil_length_inv. rewrite length_drop. lia.
  - right. by rewrite length_drop.
Qed.
End EncryptionMore.

(** ** More on JavaScript maps *)

Section MapMore.
Context {V : Type}.
Implicit Types (m : Map V) (k : string) (v : V).

Lemma keys_set k v m :
  keys (set k v m) = if get k m is Some _ then keys m else keys m ++ [k].
Proof.
  unfold keys. induction m as [|[k' v'] m IH]; csimpl; [done|].
  destruct (decide (k' = k)) as [->|Hne]; csimpl; [done|].
  rewrite IH. by destruct (get k m).
Qed.

Lemma get_Some_keys k m : is_Some (get k m) ↔ k ∈ keys m.
Proof.
  unfold keys. induction m as [|[k' v'] m IH]; csimpl.
  - split; [by intros [? ?]|]. intros H. by apply elem_of_nil in H.
  - destruct (decide (k' = k)) as [->|Hne].
    + split; [intros _; left|by eexists].
    + rewrite IH. rewrite elem_of_cons. naive_solver.
Qed.

Lemma keys_delete k m : keys (delete k m) = filter (λ k', k' ≠ k) (keys m).
Proof.
  unfold keys, delete. induction m as [|[k' v'] m IH]; [done|].
  rewrite filter_cons. csimpl. rewrite filter_cons.
  destruct (decide (k' ≠ k)); csimpl; by rewrite IH.
Qed.

Lemma NoDup_keys_set k v m : NoDup (keys m) → NoDup (keys (set k v m)).
Proof.
  intros Hnd. rewrite keys_set. destruct (get k m) as [v0|] eqn:Hget; [done|].
  apply NoDup_app. split_and!; [done| |apply NoDup_singleton].
  intros k' Hin ->%list_elem_of_singleton.
  apply get_Some_keys in Hin as [v0 Hv0]. congruence.
Qed.

Lemma NoDup_keys_delete k m : NoDup (keys m) → NoDup (keys (delete k m)).
Proof. intros Hnd. rewrite keys_delete. by apply NoDup_filter. Qed.

Lemma elem_of_get k v m : NoDup (keys m) → (k, v) ∈ m → get k m = Some v.
Proof.
  unfold keys. induction m as [|[k' v'] m IH]; csimpl; intros Hnd Hin.
  - by apply elem_of_nil in Hin.
  - apply NoDup_cons in Hnd as [Hk' Hnd].
    apply elem_of_cons in Hin as [[= -> ->]|Hin].
    + by rewrite decide_True.
    + destruct (decide (k' = k)) as [->|Hne]; [|by apply IH].
      exfalso. apply Hk'. apply list_elem_of_fmap. by exists (k, v).
Qed.

Lemma get_elem_of k v m : get k m = Some v → (k, v) ∈ m.
Proof.
  induction m as [|[k' v'] m IH]; simpl; [done|].
  destruct (decide (k' = k)) as [->|Hne].
  - intros [= ->]. left.
  - intros H. right. by apply IH.
Qed.

Lemma delete_absent k m : get k m = None → delete k m = m.
Proof.
  unfold delete. induction m as [|[k' v'] m IH]; simpl; [done|].
  destruct (decide (k' = k)) as [->|Hne]; [done|]. intros Hget.
  rewrite filter_cons. simpl. rewrite decide_True by done. by rewrite IH.
Qed.

Lemma length_set k v m :
  length (set k v m) = if get k m is Some _ then length m else S (length m).
Proof.
  induction m as [|[k' v'] m IH]; simpl; [done|].
  destruct (decide (k' = k)) as [->|Hne]; simpl; [done|].
  rewrite IH. by destruct (get k m).
Qed.
End MapMore.

(** ** The storage layer beyond the claims *)

Section StorageMore.
Import Storage Invariants.
Context {R : Type}.
Variable client : IpfsClient R.
Variable sha256_hex : Buffer → string.
Implicit Types (s : Storage R) (w : World).

Lemma mockUploadFile_run filePath (content : Buffer) options s w :
  let fileId := or_string (fileId options) (_generateMockFileId sha256_hex content) in
  let storagePath := Path.join (tempDir s) fileId in
  _mockUploadFile sha256_hex filePath content options (s, w) =
  (Ok fileId,
   (set_files (set fileId
      {| mf_id := fileId; mf_path := storagePath; mf_content := content;
         mf_originalPath := filePath; mf_size := length content;
         mf_createdAt := clock w |}) s,
    set_fs (insert storagePath content) w)).
Proof. cbv zeta. unfold _mockUploadFile. by run. Qed.

Lemma mockDeleteFile_run fileId options s w :
  _mockDeleteFile fileId options (s, w) =
  (Ok true,
   match get fileId (files s) with
   | Some fileInfo =>
       (set_files (delete fileId) s, set_fs (base.delete (mf_path fileInfo)) w)
   | None => (s, w)
   end).
Proof. unfold _mockDeleteFile. run. by destruct (get fileId (files s)). Qed.

Lemma deleteFile_mock fileId options s w :
  storageType s = "ipfs" → usingMock s = true →
  deleteFile client fileId options (s, w) = _mockDeleteFile fileId options (s, w).
Proof.
  intros Htype Hmock. rewrite mockDeleteFile_run.
  unfold deleteFile. run. rewrite Htype, Hmock. simpl.
  pose proof (mockDeleteFile_run fileId options s w) as Hrun.
  destruct (_mockDeleteFile _ _ _) as [r σ]. by injection Hrun as -> ->.
Qed.

Lemma listFiles_mock options s w :
  storageType s = "ipfs" → usingMock s = true →
  listFiles client options (s, w) =
  (Ok ((λ file, {| l_id := mf_id file; l_size := Some (mf_size file);
                   l_createdAt := Some (mf_createdAt file); l_type := None |})
         <$> values (files s)), (s, w)).
Proof.
  intros Htype Hmock. unfold listFiles, _mockListFiles. run.
  by rewrite Htype, Hmock.
Qed.



(** X7. On a constructed storage object neither a deletion nor a
    listing ever fails, whatever the client does, and a deletion always
    answers [true], also for an id that is not stored. *)
Theorem storage_delete_and_list_never_fail s w :
  storageType s = "ipfs" →
  (∀ fileId options, ∃ σ, deleteFile client fileId options (s, w) = (Ok true, σ))
  ∧ (∀ options, ∃ listed σ, listFiles client options (s, w) = (Ok listed, σ)).
Proof.
  intros Htype. split.
  - intros fileId options. unfold deleteFile, on_ipfs. run. rewrite Htype. simpl.
    destruct (usingMock s), (ipfs s) as [r|]; simpl;
      try (rewrite mockDeleteFile_run; by eexists).
    destruct (ipfs_pin_rm client fileId options r) as [[[]|e] r']; simpl;
      [by eexists|].
    rewrite mockDeleteFile_run. by eexists.
  - intros options. unfold listFiles, _mockListFiles, on_ipfs. run.
    rewrite Htype. simpl.
    destruct (usingMock s), (ipfs s) as [r|]; simpl; try by eexists _, _.
    destruct (ipfs_pin_ls client options r) as [[pins|e] r']; simpl;
      by eexists _, _.
Qed.

(** X8. A file that the client accepted is not kept in the local store,
    so when the client later fails on the download, the fallback does not
    signal anything: the download succeeds and the destination holds the
    placeholder text, not the uploaded octets. *)
Theorem outage_download_writes_placeholder s w filePath (content : Buffer)
    options r cid r1 destination downloadOptions e r2 :
  storageType s = "ipfs" → usingMock s = false → ipfs s = Some r →
  fs w !! filePath = Some content →
  get cid (files s) = None →
  ipfs_add client content options r = (Ok cid, r1) →
  ipfs_cat client cid downloadOptions r1 = (Throw e, r2) →
  ∃ s1 s2 w2,
    uploadFile client sha256_hex filePath options (s, w) = (Ok cid, (s1, w))
    ∧ files s1 = files s ∧ ipfs s1 = Some r1
    ∧ downloadFile client cid destination downloadOptions (s1, w)
      = (Ok destination, (s2, w2))
    ∧ fs w2 !! destination
      = Some (Buffer_from ("Mock content for file ID: " +:+ cid))
    ∧ files s2 = files s ∧ ipfs s2 = Some r2.
Proof.
  intros Htype Hmock Hipfs Hfile Hget Hadd Hcat.
  eexists _, _, _. split_and!.
  - unfold uploadFile, on_ipfs. run. rewrite Hfile. simpl. rewrite Hfile. simpl.
    rewrite Htype, Hmock, Hipfs. simpl. rewrite Hadd. simpl. done.
  - done.
  - done.
  - unfold downloadFile, on_ipfs. run. rewrite Htype, Hmock. simpl.
    rewrite Hcat. simpl. rewrite mockDownloadFile_run. simpl. rewrite Hget. done.
  - simpl. by rewrite lookup_insert_eq.
  - done.
  - done.
Qed.


(** X10. Two uploads into the mock store that receive the same id leave
    one record: the listing order is that after the first upload and a
    download of the id writes the content of the second.  Without a
    supplied id, the ids are the same as soon as the digests of the two
    contents agree on their first eight hexadecimal digits, in particular
    for equal contents. *)
Theorem mock_upload_same_id_replaces s w path1 path2 options1 options2
    (content1 content2 : Buffer) id1 id2 s1 w1 s2 w2 :
  storageType s = "ipfs" → usingMock s = true →
  fs w !! path1 = Some content1 →
  uploadFile client sha256_hex path1 options1 (s, w) = (Ok id1, (s1, w1)) →
  fs w1 !! path2 = Some content2 →
  uploadFile client sha256_hex path2 options2 (s1, w1) = (Ok id2, (s2, w2)) →
  (or_string (fileId options1) "" = "" → or_string (fileId options2) "" = "" →
   String.substring 0 8 (sha256_hex content1)
   = String.substring 0 8 (sha256_hex content2) →
   id1 = id2)
  ∧ (id1 = id2 →
     keys (files s2) = keys (files s1)
     ∧ length (files s2) = length (files s1)
     ∧ ∀ destination downloadOptions,
         downloadFile client id1 destination downloadOptions (s2, w2)
         = (Ok destination, (s2, set_fs (insert destination content2) w2))).
Proof.
  intros Htype Hmock Hfile1.
  rewrite (uploadFile_mock client sha256_hex _ options1 _ _ _ Htype Hmock Hfile1).
  intros [= <- <- <-] Hfile2.
  rewrite (uploadFile_mock client sha256_hex path2 options2 (set_files _ s) _ content2)
    by done.
  intros [= <- <- <-]. split.
  - unfold _generateMockFileId.
    destruct (fileId options1) as [[|c1 t1]|], (fileId options2) as [[|c2 t2]|];
      simpl; try done; by intros _ _ ->.
  - intros Hid. rewrite <- Hid. simpl. split_and!.
    + by rewrite keys_set, get_set_eq.
    + by rewrite length_set, get_set_eq.
    + intros destination downloadOptions.
      rewrite downloadFile_mock, mockDownloadFile_run by done.
      simpl. by rewrite get_set_eq.
Qed.

(** X11. Deleting from the mock store: the answer is [true]; the id's
    record and its stored copy are gone and nothing else changes; every
    other id keeps its record; a second deletion changes nothing; and a
    later download of the id writes the placeholder text. *)
Theorem mock_delete_effect s w fileId options :
  storageType s = "ipfs" → usingMock s = true →
  ∃ s' w',
    deleteFile client fileId options (s, w) = (Ok true, (s', w'))
    ∧ get fileId (files s') = None
    ∧ (∀ other, other ≠ fileId → get other (files s') = get other (files s))
    ∧ fs w' = match get fileId (files s) with
              | Some file => base.delete (mf_path file) (fs w)
              | None => fs w
              end
    ∧ (∀ options', deleteFile client fileId options' (s', w') = (Ok true, (s', w')))
    ∧ (∀ destination options',
         downloadFile client fileId destination options' (s', w')
         = (Ok destination,
            (s', set_fs (insert destination
                           (Buffer_from ("Mock content for file ID: " +:+ fileId)))
                   w'))).
Proof.
  intros Htype Hmock. rewrite deleteFile_mock, mockDeleteFile_run by done.
  destruct (get fileId (files s)) as [file|] eqn:Hget.
  - eexists _, _. split_and!; [done| | |done| |].
    + simpl. apply get_delete_eq.
    + intros other Hne. simpl. by apply get_delete_ne.
    + intros options'. rewrite deleteFile_mock, mockDeleteFile_run by done.
      simpl. by rewrite get_delete_eq.
    + intros destination options'.
      rewrite downloadFile_mock, mockDownloadFile_run by done.
      simpl. by rewrite get_delete_eq.
  - eexists _, _. split_and!; [done|done|done|done| |].
    + intros options'. rewrite deleteFile_mock, mockDeleteFile_run by done.
      by rewrite Hget.
    + intros destination options'.
      rewrite downloadFile_mock, mockDownloadFile_run by done. by rewrite Hget.
Qed.

Lemma filed_set fileId storagePath filePath (content : Buffer) stamp s :
  filed s →
  filed (set_files (set fileId
    {| mf_id := fileId; mf_path := storagePath;
       mf_content := content; mf_originalPath := filePath;
       mf_size := length content; mf_createdAt := stamp |}) s).
Proof.
  intros [Hnd Hrec]. split; simpl.
  - by apply NoDup_keys_set.
  - intros k f [[= -> ->]|Hin]%elem_of_set; [done|]. by apply Hrec.
Qed.

Lemma filed_delete fileId s :
  filed s → filed (set_files (delete fileId) s).
Proof.
  intros [Hnd Hrec]. split; simpl.
  - by apply NoDup_keys_delete.
  - intros k f [Hin _]%elem_of_delete. by apply Hrec.
Qed.

Lemma filed_ipfs s (r : option R) :
  filed s →
  filed {| storageType := storageType s; tempDir := tempDir s;
                files := files s; usingMock := usingMock s; ipfs := r |}.
Proof. done. Qed.

(** X12. The store's bookkeeping is an invariant of the class: a new
    object has it, and every method keeps it, whatever the arguments, the
    outcome and the client's behaviour.  Each record is filed under its
    own id with the length of its content, no id is filed twice, and the
    storage type and the directory never change. *)
Theorem storage_bookkeeping_invariant :
  (∀ create type w s w',
     new create type w = (Ok s, w') → filed s ∧ storageType s = "ipfs")
  ∧ ∀ s w, filed s →
      (∀ filePath options res s' w',
         uploadFile client sha256_hex filePath options (s, w) = (res, (s', w')) →
         filed s' ∧ storageType s' = storageType s ∧ tempDir s' = tempDir s)
      ∧ (∀ fileId destination options res s' w',
           downloadFile client fileId destination options (s, w) = (res, (s', w')) →
           filed s' ∧ storageType s' = storageType s ∧ tempDir s' = tempDir s)
      ∧ (∀ fileId options res s' w',
           deleteFile client fileId options (s, w) = (res, (s', w')) →
           filed s' ∧ storageType s' = storageType s ∧ tempDir s' = tempDir s)
      ∧ (∀ options res s' w',
           listFiles client options (s, w) = (res, (s', w')) →
           filed s' ∧ storageType s' = storageType s ∧ tempDir s' = tempDir s).
Proof.
  split.
  { intros create type w s w'. unfold new. run.
    destruct (decide (type = "ipfs")) as [->|Hne]; [|done].
    assert (∀ t d u (i : option R),
              filed {| storageType := t; tempDir := d; files := [];
                            usingMock := u; ipfs := i |}) as Hempty.
    { intros. split; simpl; [apply NoDup_nil_2|].
      intros k f Hin. by apply elem_of_nil in Hin. }
    destruct create as [[r|e]|]; simpl; intros [= <- <-]; by split. }
  intros s w Hs. split_and!.
  - intros filePath options res s' w'. unfold uploadFile, on_ipfs. run.
    destruct (fs w !! filePath) as [content|] eqn:Hfile; simpl;
      [|by intros [= <- <- <-]].
    rewrite Hfile. simpl.
    destruct (decide (storageType s = "ipfs")) as [Htype|Htype]; simpl.
    + destruct (usingMock s), (ipfs s) as [r|]; simpl;
        try (intros [= <- <- <-]; split; [by apply filed_set|done]).
      destruct (ipfs_add client content options r) as [[cid|e] r']; simpl.
      * intros [= <- <- <-]. done.
      * intros [= <- <- <-]. split; [|done].
        apply (filed_set _ _ filePath content (clock w)
                 {| storageType := storageType s; tempDir := tempDir s;
                    files := files s; usingMock := false; ipfs := Some r' |}).
        done.
    + intros [= <- <- <-]. done.
  - intros fileId destination options res s' w'. unfold downloadFile, on_ipfs. run.
    destruct (decide (storageType s = "ipfs")) as [Htype|Htype]; simpl.
    + destruct (usingMock s), (ipfs s) as [r|]; simpl;
        try (rewrite mockDownloadFile_run; simpl; by intros [= <- <- <-]).
      destruct (ipfs_cat client fileId options r) as [[chunks|e] r']; simpl.
      * by intros [= <- <- <-].
      * rewrite mockDownloadFile_run. simpl. by intros [= <- <- <-].
    + by intros [= <- <- <-].
  - intros fileId options res s' w'. unfold deleteFile, on_ipfs. run.
    destruct (decide (storageType s = "ipfs")) as [Htype|Htype]; simpl.
    + destruct (usingMock s), (ipfs s) as [r|]; simpl;
        try (rewrite mockDeleteFile_run; simpl;
             destruct (get fileId (files s)); simpl; intros [= <- <- <-];
             (split; [first [exact (filed_delete fileId s Hs)|done]|done])).
      destruct (ipfs_pin_rm client fileId options r) as [[[]|e] r']; simpl.
      * by intros [= <- <- <-].
      * rewrite mockDeleteFile_run. simpl.
        destruct (get fileId (files s)); simpl; intros [= <- <- <-]; [|done].
        split; [|done].
        apply (filed_delete fileId
                 {| storageType := storageType s; tempDir := tempDir s;
                    files := files s; usingMock := false; ipfs := Some r' |}).
        done.
    + by intros [= <- <- <-].
  - intros options res s' w'. unfold listFiles, _mockListFiles, on_ipfs. run.
    destruct (decide (storageType s = "ipfs")) as [Htype|Htype]; simpl.
    + destruct (usingMock s), (ipfs s) as [r|]; simpl;
        try by intros [= <- <- <-].
      destruct (ipfs_pin_ls client options r) as [[pins|e] r']; simpl;
        by intros [= <- <- <-].
    + by intros [= <- <- <-].
Qed.

(** X13. On a store with that bookkeeping the listing of the mock store
    is faithful: it changes nothing, has exactly one entry for each
    stored id, in the order the ids were first stored, and each entry's
    size is the length of the content a download of that id writes. *)
Theorem mock_listing_matches_store s w options :
  storageType s = "ipfs" → usingMock s = true → filed s →
  ∃ listed,
    listFiles client options (s, w) = (Ok listed, (s, w))
    ∧ l_id <$> listed = keys (files s)
    ∧ NoDup (l_id <$> listed)
    ∧ ∀ entry, entry ∈ listed →
        ∃ file, get (l_id entry) (files s) = Some file
                ∧ l_size entry = Some (length (mf_content file))
                ∧ l_createdAt entry = Some (mf_createdAt file)
                ∧ ∀ destination options',
                    downloadFile client (l_id entry) destination options' (s, w)
                    = (Ok destination,
                       (s, set_fs (insert destination (mf_content file)) w)).
Proof.
  intros Htype Hmock [Hnd Hrec]. rewrite listFiles_mock by done.
  eexists. split; [done|].
  assert (l_id <$> ((λ file, {| l_id := mf_id file; l_size := Some (mf_size file);
                                l_createdAt := Some (mf_createdAt file);
                                l_type := None |}) <$> values (files s))
          = keys (files s)) as Hids.
  { unfold values, keys. rewrite <- !list_fmap_compose.
    apply Forall_fmap_ext, Forall_forall. intros [k f] Hin. simpl.
    by destruct (Hrec k f Hin) as (-> & _). }
  split_and!; [done|by rewrite Hids|].
  intros entry (file & -> & Hin)%list_elem_of_fmap.
  apply list_elem_of_fmap in Hin as ([k f] & -> & Hin). simpl.
  destruct (Hrec k f Hin) as (Hid & Hsize).
  exists f. rewrite Hid, Hsize. split_and!; [by apply elem_of_get|done|done|].
  intros destination options'.
  rewrite downloadFile_mock, mockDownloadFile_run by done.
  by rewrite (elem_of_get k f (files s) Hnd Hin).
Qed.
End StorageMore.

(** ** The resolver beyond the claims *)

Section FileManagerMore.
Import FileManager Invariants.
Context {S : Type} `{!StorageProvider S}.
Implicit Types (fm : FileManager S) (w : World).

(** X14. [deleteFile] hands the storage object the stored [storageId]
    when the id is registered and the id itself when it is not.  When the
    storage object answers, the answer is returned and no record is left
    under the id; when it throws, the error is rethrown under the prefix
    [Failed to delete file: ] and the registry is what it was, so the
    record is still there for another attempt. *)
Theorem delete_resolves_or_passes_through fileId options fm w :
  deleteFile fileId options (fm, w) =
  let backendId := match get fileId (fileRegistry fm) with
                   | Some fileInfo => storageId fileInfo
                   | None => fileId
                   end in
  let '(outcome, (s', w')) := storage_deleteFile backendId options (storage fm, w) in
  match outcome with
  | Ok result =>
      (Ok result,
       ({| storage := s'; fileRegistry := delete fileId (fileRegistry fm);
           tempDir := tempDir fm |}, w'))
  | Throw e =>
      (Throw (Error ("Failed to delete file: " +:+ message e)),
       ({| storage := s'; fileRegistry := fileRegistry fm; tempDir := tempDir fm |}, w'))
  end.
Proof.
  unfold deleteFile, on_storage. run.
  destruct (get fileId (fileRegistry fm)) as [fileInfo|] eqn:Hget; simpl;
    destruct (storage_deleteFile _ _ _) as [[r|e] [s' w']]; simpl; try done.
  by rewrite delete_absent.
Qed.

(** What a successful upload does to the resolver. *)
Lemma uploadFile_record filePath options fm w (content content1 : Buffer)
    storageId s1 w1 :
  fs w !! filePath = Some content →
  storage_uploadFile filePath options (storage fm, w) = (Ok storageId, (s1, w1)) →
  fs w1 !! filePath = Some content1 →
  ∃ newId w',
    uploadFile filePath options (fm, w)
    = (Ok newId,
       ({| storage := s1;
           fileRegistry :=
             set newId
               {| id := newId; storageId := storageId;
                  name := Path.basename filePath; size := length content1;
                  fi_contentType :=
                    or_string (contentType options) "application/octet-stream";
                  createdAt := clock w1;
                  fi_encrypted := or_false (encrypted options) |}
               (fileRegistry fm);
           tempDir := tempDir fm |}, w'))
    ∧ fs w' = fs w1 ∧ clock w' = clock w1
    ∧ (or_string (fileId options) "" ≠ "" →
       newId = or_string (fileId options) "" ∧ w' = w1)
    ∧ (or_string (fileId options) "" = "" →
       Uuid.v4 w1 = (Ok newId, w') ∧ String.length newId = 36).
Proof.
  intros Hfile Hup Hstat.
  unfold uploadFile, on_storage, generateFileId, Uuid.v4, Crypto.randomBytes. run.
  rewrite Hfile, Hup. simpl.
  destruct (fileId options) as [[|c i]|]; simpl; rewrite Hstat; simpl;
    eexists _, _; (split; [done|]); simpl; by split_and!.
Qed.

(** X15. The record a successful upload files: it is stored under the
    returned id, names the id the storage object returned, the base name
    of the path, the size of the file as it is after the storage upload,
    the content type (by default [application/octet-stream]), the time of
    the call and the [encrypted] flag (by default false).  Every other
    record is untouched, and the id joins the listing order only if it was
    not registered.  A supplied non-empty id is used as it is; otherwise
    the id is the version-4 UUID that [uuid] makes of the next sixteen
    random octets, 36 characters long. *)
Theorem upload_files_record filePath options fm w (content content1 : Buffer)
    storageId s1 w1 :
  fs w !! filePath = Some content →
  storage_uploadFile filePath options (storage fm, w) = (Ok storageId, (s1, w1)) →
  fs w1 !! filePath = Some content1 →
  ∃ newId fm' w',
    uploadFile filePath options (fm, w) = (Ok newId, (fm', w'))
    ∧ get newId (fileRegistry fm')
      = Some {| id := newId; storageId := storageId;
                name := Path.basename filePath; size := length content1;
                fi_contentType :=
                  or_string (contentType options) "application/octet-stream";
                createdAt := clock w1;
                fi_encrypted := or_false (encrypted options) |}
    ∧ (∀ other, other ≠ newId →
         get other (fileRegistry fm') = get other (fileRegistry fm))
    ∧ keys (fileRegistry fm')
      = (if get newId (fileRegistry fm) is Some _ then keys (fileRegistry fm)
         else keys (fileRegistry fm) ++ [newId])
    ∧ storage fm' = s1 ∧ fs w' = fs w1
    ∧ (or_string (fileId options) "" ≠ "" →
       newId = or_string (fileId options) "" ∧ w' = w1)
    ∧ (or_string (fileId options) "" = "" →
       Uuid.v4 w1 = (Ok newId, w') ∧ String.length newId = 36).
Proof.
  intros Hfile Hup Hstat.
  destruct (uploadFile_record _ _ _ _ _ _ _ _ _ Hfile Hup Hstat)
    as (newId & w' & Hrun & Hfs & _ & Hsupplied & Hgenerated).
  eexists _, _, _. split; [exact Hrun|]. simpl. split_and!; try done.
  - by rewrite get_set_eq.
  - intros other Hne. by rewrite get_set_ne.
  - by rewrite keys_set.
Qed.

Lemma well_formed_set k v (registry : Map FileInfo) :
  id v = k → well_formed registry → well_formed (set k v registry).
Proof.
  intros Hid [Hnd Hkeyed]. split; [by apply NoDup_keys_set|by apply keyed_set].
Qed.

Lemma well_formed_delete k (registry : Map FileInfo) :
  well_formed registry → well_formed (delete k registry).
Proof.
  intros [Hnd Hkeyed]. split; [by apply NoDup_keys_delete|by apply keyed_delete].
Qed.

(** X16. The registry's bookkeeping is an invariant of the resolver,
    whatever storage object it drives: a new resolver has it and every
    method keeps it, whatever the arguments and the outcome.  No id is
    registered twice and every record carries the id it is filed under. *)
Theorem registry_bookkeeping_invariant :
  (∀ storage w fm w', new storage w = (Ok fm, w') → well_formed (fileRegistry fm))
  ∧ ∀ fm w, well_formed (fileRegistry fm) →
      (∀ filePath options r fm' w',
         uploadFile filePath options (fm, w) = (r, (fm', w')) →
         well_formed (fileRegistry fm'))
      ∧ (∀ fileId destination options r fm' w',
           downloadFile fileId destination options (fm, w) = (r, (fm', w')) →
           well_formed (fileRegistry fm'))
      ∧ (∀ fileId options r fm' w',
           deleteFile fileId options (fm, w) = (r, (fm', w')) →
           well_formed (fileRegistry fm'))
      ∧ (∀ options r fm' w',
           listFiles options (fm, w) = (r, (fm', w')) →
           well_formed (fileRegistry fm')).
Proof.
  split.
  - intros storage w fm w'. unfold new. run. intros [= <- _].
    split; [apply NoDup_nil_2|]. intros k v Hin. by apply elem_of_nil in Hin.
  - intros fm w Hwf. split_and!.
    + intros filePath options r fm' w' Hrun. apply uploadFile_registry in Hrun.
      destruct r as [i|e]; [|by rewrite Hrun].
      destruct Hrun as (fileInfo & Hid & ->). by apply well_formed_set.
    + intros fileId destination options r fm' w' Hrun.
      by rewrite (downloadFile_registry _ _ _ _ _ _ _ _ Hrun).
    + intros fileId options r fm' w' Hrun.
      destruct (deleteFile_registry _ _ _ _ _ _ _ Hrun) as [->|(_ & _ & ->)]; [done|].
      by apply well_formed_delete.
    + intros options r fm' w'. rewrite listFiles_run. by intros [= _ <- _].
Qed.

(** X17. With that bookkeeping a listing is faithful: it changes
    nothing, shows each registered id exactly once, in the order of first
    registration, and each entry is the record filed under its id, so that
    a download or deletion by a listed id resolves to that entry's
    [storageId]. *)
Theorem listing_matches_registry fm w options :
  well_formed (fileRegistry fm) →
  ∃ listed,
    listFiles options (fm, w) = (Ok listed, (fm, w))
    ∧ id <$> listed = keys (fileRegistry fm)
    ∧ NoDup (id <$> listed)
    ∧ (∀ entry, entry ∈ listed → get (id entry) (fileRegistry fm) = Some entry)
    ∧ (∀ fileId entry, get fileId (fileRegistry fm) = Some entry → entry ∈ listed).
Proof.
  intros [Hnd Hkeyed]. rewrite listFiles_run. eexists. split; [done|].
  assert (id <$> values (fileRegistry fm) = keys (fileRegistry fm)) as Hids.
  { unfold values, keys. rewrite <- list_fmap_compose.
    apply Forall_fmap_ext, Forall_forall. intros [k v] Hin. simpl.
    by apply Hkeyed. }
  split_and!; [done|by rewrite Hids| |].
  - intros entry ([k v] & -> & Hin)%list_elem_of_fmap. simpl.
    rewrite (Hkeyed k v Hin). by apply elem_of_get.
  - intros fileId entry Hget%get_elem_of. unfold values.
    apply list_elem_of_fmap. by exists (fileId, entry).
Qed.
End FileManagerMore.

(** ** The resolver on [lib/storage.js] *)

Section ManagerOnStorage.
Import FileManager.
Context {R : Type}.
Variable client : Storage.IpfsClient R.
Variable sha256_hex : Buffer → string.
Implicit Types (fm : FileManager (Storage.Storage R)) (w : World).

Local Abbreviation provider := (Storage_provider client sha256_hex).


Lemma manager_upload_mock filePath options fm w (content : Buffer) :
  Storage.storageType (storage fm) = "ipfs" →
  Storage.usingMock (storage fm) = true →
  fs w !! filePath = Some content →
  let sid := or_string (fileId options)
               (Storage._generateMockFileId sha256_hex content) in
  let storagePath := Path.join (Storage.tempDir (storage fm)) sid in
  ∃ newId w',
    @uploadFile _ provider filePath options (fm, w)
    = (Ok newId,
       ({| storage :=
             Storage.set_files (set sid
               {| Storage.mf_id := sid; Storage.mf_path := storagePath;
                  Storage.mf_content := content;
                  Storage.mf_originalPath := filePath;
                  Storage.mf_size := length content;
                  Storage.mf_createdAt := clock w |}) (storage fm);
           fileRegistry :=
             set newId
               {| id := newId; storageId := sid;
                  name := Path.basename filePath; size := length content;
                  fi_contentType :=
                    or_string (contentType options) "application/octet-stream";
                  createdAt := clock w;
                  fi_encrypted := or_false (encrypted options) |}
               (fileRegistry fm);
           tempDir := tempDir fm |}, w'))
    ∧ fs w' = <[storagePath := content]> (fs w)
    ∧ (or_string (fileId options) "" = "" → String.length newId = 36).
Proof.
  intros Htype Hmock Hfile sid storagePath.
  pose proof (uploadFile_mock client sha256_hex filePath options _ _ _
                Htype Hmock Hfile) as Hup.
  cbv zeta in Hup. fold sid storagePath in Hup.
  assert (fs (set_fs (insert storagePath content) w) !! filePath = Some content)
    as Hstat.
  { simpl. destruct (decide (storagePath = filePath)) as [->|Hne].
    - by rewrite lookup_insert_eq.
    - by rewrite lookup_insert_ne. }
  destruct (@uploadFile_record _ provider filePath options fm w content content
              sid _ _ Hfile Hup Hstat)
    as (newId & w' & Hrun & Hfs & _ & _ & Hgenerated).
  exists newId, w'. split_and!; [done|done|].
  intros Hnone. by destruct (Hgenerated Hnone).
Qed.


(** X19. On the mock store, what was uploaded is what a download by the
    returned id writes, whatever happens to the file system in between:
    the store keeps the octets read at upload time, so changing or
    removing the source file or the stored copy afterwards makes no
    difference. *)
Theorem upload_then_download_restores_content filePath options fm w
    (content : Buffer) :
  Storage.storageType (storage fm) = "ipfs" →
  Storage.usingMock (storage fm) = true →
  fs w !! filePath = Some content →
  ∃ newId fm1 w1,
    @uploadFile _ provider filePath options (fm, w) = (Ok newId, (fm1, w1))
    ∧ ∀ w2 destination downloadOptions,
        @downloadFile _ provider newId destination downloadOptions (fm1, w2)
        = (Ok destination, (fm1, set_fs (insert destination content) w2)).
Proof.
  intros Htype Hmock Hfile.
  destruct (manager_upload_mock filePath options fm w content Htype Hmock Hfile)
    as (newId & w1 & Hrun & _).
  eexists _, _, _. split; [exact Hrun|].
  intros w2 destination downloadOptions.
  unfold downloadFile, on_storage. run. rewrite get_set_eq. simpl.
  rewrite downloadFile_mock, mockDownloadFile_run by done.
  simpl. by rewrite get_set_eq.
Qed.

(** X20. Two uploads of the same content without a supplied id share one
    stored object, because the mock store names it after the content.
    When the two uploads returned different ids, deleting the first
    removes that object: the second id stays registered, but a download
    by it no longer yields the content; it succeeds and writes the
    placeholder text. *)
Theorem delete_of_duplicate_breaks_other path1 path2 options1 options2 fm w
    (content : Buffer) id1 id2 fm1 w1 fm2 w2 :
  Storage.storageType (storage fm) = "ipfs" →
  Storage.usingMock (storage fm) = true →
  or_string (fileId options1) "" = "" → or_string (fileId options2) "" = "" →
  fs w !! path1 = Some content →
  @uploadFile _ provider path1 options1 (fm, w) = (Ok id1, (fm1, w1)) →
  fs w1 !! path2 = Some content →
  @uploadFile _ provider path2 options2 (fm1, w1) = (Ok id2, (fm2, w2)) →
  id1 ≠ id2 →
  ∃ fm3 w3,
    @deleteFile _ provider id1 no_options (fm2, w2) = (Ok true, (fm3, w3))
    ∧ is_Some (get id2 (fileRegistry fm3))
    ∧ ∀ destination downloadOptions,
        @downloadFile _ provider id2 destination downloadOptions (fm3, w3)
        = (Ok destination,
           (fm3, set_fs (insert destination
                           (Buffer_from
                              ("Mock content for file ID: "
                               +:+ Storage._generateMockFileId sha256_hex content)))
                   w3)).
Proof.
  intros Htype Hmock Hno1 Hno2 Hfile1 Hup1 Hfile2 Hup2 Hne.
  destruct (manager_upload_mock path1 options1 fm w content Htype Hmock Hfile1)
    as (new1 & w1' & Hrun1 & _).
  rewrite Hrun1 in Hup1. injection Hup1 as <- Hfm1 <-.
  destruct (manager_upload_mock path2 options2 fm1 w1' content)
    as (new2 & w2' & Hrun2 & _); [by rewrite <- Hfm1..|done|].
  rewrite Hrun2 in Hup2. injection Hup2 as <- <- <-. subst fm1.
  assert (∀ options, or_string (fileId options) "" = "" →
            or_string (fileId options)
              (Storage._generateMockFileId sha256_hex content)
            = Storage._generateMockFileId sha256_hex content) as Hsid.
  { intros options. by destruct (fileId options) as [[|c i]|]. }
  simpl. rewrite !Hsid by done.
  set (sid := Storage._generateMockFileId sha256_hex content).
  eexists _, _. split_and!.
  - unfold deleteFile, on_storage. run.
    rewrite get_set_ne, get_set_eq by (by intros ->). simpl.
    rewrite deleteFile_mock, mockDeleteFile_run by done.
    simpl. rewrite get_set_eq. simpl. done.
  - simpl. rewrite get_delete_ne, get_set_eq by done. by eexists.
  - intros destination downloadOptions.
    unfold downloadFile, on_storage. run.
    rewrite get_delete_ne, get_set_eq by done. simpl.
    rewrite downloadFile_mock, mockDownloadFile_run by done.
    simpl. by rewrite get_delete_eq.
Qed.
End ManagerOnStorage.

(** ** The facade of [index.js] *)

Section DriveFacts.
Import Crypto.
Context {R : Type}.
Variable E D : Buffer → Buffer → Buffer.
Variable kdf : string → Buffer → N → nat → string → Buffer.
Variable client : Storage.IpfsClient R.
Variable sha256_hex : Buffer → string.

Hypothesis block_length : ∀ k b, length k = 32 → length b = 16 → length (E k b) = 16.
Hypothesis block_inverse : ∀ k b, length k = 32 → length b = 16 → D k (E k b) = b.
Hypothesis kdf_length : ∀ pw s, length (kdf pw s 100000%N 32 "sha256") = 32.

Implicit Types (drive : AetherDrive.AetherDrive R) (w : World).

(** X21. Constructing the facade: with no storage type, or with
    [ipfs], it succeeds with an empty registry and an empty store, and it
    runs on the mock store exactly when the client library is missing or
    its [create] throws; with any other storage type the constructor
    throws [Unsupported storage type: <type>] and there is no instance. *)
Theorem drive_construction (create : option (Result R)) options w :
  (default "ipfs" (AetherDrive.cfg_storageType options) = "ipfs" →
   ∃ drive,
     AetherDrive.new create options w = (Ok drive, w)
     ∧ FileManager.fileRegistry (AetherDrive.fileManager drive) = []
     ∧ Storage.files (AetherDrive.storage drive) = []
     ∧ Storage.storageType (AetherDrive.storage drive) = "ipfs"
     ∧ Invariants.consistent (AetherDrive.storage drive)
     ∧ (Storage.usingMock (AetherDrive.storage drive) = false
        ↔ ∃ r, create = Some (Ok r))
     ∧ (∀ r, create = Some (Ok r) → Storage.ipfs (AetherDrive.storage drive) = Some r))
  ∧ (default "ipfs" (AetherDrive.cfg_storageType options) ≠ "ipfs" →
     AetherDrive.new create options w
     = (Throw (Error ("Unsupported storage type: "
                      +:+ default "ipfs" (AetherDrive.cfg_storageType options))), w)).
Proof.
  unfold AetherDrive.new, Storage.new, FileManager.new.
  set (type := default "ipfs" (AetherDrive.cfg_storageType options)).
  assert (consistent_empty : ∀ t d u (i : option R),
            Invariants.consistent
              {| Storage.storageType := t; Storage.tempDir := d;
                 Storage.files := []; Storage.usingMock := u; Storage.ipfs := i |}).
  { intros. split; simpl; [apply NoDup_nil_2|].
    intros k f Hin. by apply elem_of_nil in Hin. }
  split.
  - intros Htype. run. rewrite decide_True by done.
    destruct create as [[r|e]|]; simpl; eexists;
      (split; [done|]); simpl; split_and!; try done;
      try apply consistent_empty;
      try (split; [done|by intros [r' [=]]]).
    + split; [by eexists|done].
    + by intros r' [= ->].
  - intros Htype. run. by rewrite decide_False.
Qed.

(** X22. Encrypting a file, uploading the envelope marked as encrypted,
    downloading it by the returned id and decrypting the download under
    the same password yields the original octets.  The facade never
    encrypts or decrypts by itself: the [encrypted] mark is only recorded,
    and the download is the envelope as uploaded. *)
Theorem encrypted_upload_roundtrip drive w path password (p : Buffer) download :
  Storage.storageType (AetherDrive.storage drive) = "ipfs" →
  Storage.usingMock (AetherDrive.storage drive) = true →
  fs w !! path = Some p →
  ∃ w1 newId drive2 w2 envelope w3 w4 record,
    AetherDrive.encryptFile E kdf path password Encryption.no_options (drive, w)
    = (Ok (path +:+ ".enc"), (drive, w1))
    ∧ fs w1 !! (path +:+ ".enc") = Some envelope
    ∧ AetherDrive.uploadFile client sha256_hex (path +:+ ".enc")
        {| fileId := None; contentType := None; encrypted := Some true |} (drive, w1)
      = (Ok newId, (drive2, w2))
    ∧ get newId (FileManager.fileRegistry (AetherDrive.fileManager drive2))
      = Some record
    ∧ FileManager.fi_encrypted record = true
    ∧ FileManager.size record = length envelope
    ∧ AetherDrive.downloadFile client sha256_hex newId download no_options (drive2, w2)
      = (Ok download, (drive2, w3))
    ∧ fs w3 !! download = Some envelope
    ∧ AetherDrive.decryptFile D kdf download password Encryption.no_options (drive2, w3)
      = (Ok (Encryption.replace_enc_suffix download), (drive2, w4))
    ∧ fs w4 !! Encryption.replace_enc_suffix download = Some p.
Proof.
  intros Htype Hmock Hfile. destruct drive as [fm].
  unfold AetherDrive.storage in Htype, Hmock. simpl in Htype, Hmock.
  pose proof (encryptFile_run E kdf kdf_length path password
                Encryption.no_options w p Hfile) as Henc.
  cbv zeta in Henc. simpl in Henc.
  set (iv := rng w <$> seq 0 16) in *.
  set (salt := (λ i, rng w (16 + i)) <$> seq 0 16) in *.
  set (c := cipher_update E _ p) in *.
  set (envelope := salt ++ iv ++ c.1 ++ cipher_final E c.2) in *.
  set (w1 := {| fs := <[path +:+ ".enc" := envelope]> (fs w);
               rng := λ i, rng w (16 + (16 + i)); clock := clock w |}) in *.
  assert (fs w1 !! (path +:+ ".enc") = Some envelope) as Hsealed
    by (simpl; by rewrite lookup_insert_eq).
  destruct (manager_upload_mock client sha256_hex (path +:+ ".enc")
              {| fileId := None; contentType := None; encrypted := Some true |}
              fm w1 envelope Htype Hmock Hsealed)
    as (newId & w2 & Hup & _).
  cbv zeta in Hup. simpl in Hup.
  eexists w1, newId, _, w2, envelope, _, _, _. split_and!.
  - unfold AetherDrive.encryptFile, in_world. by rewrite Henc.
  - done.
  - unfold AetherDrive.uploadFile, AetherDrive.on_fileManager. simpl.
    by rewrite Hup.
  - simpl. by rewrite get_set_eq.
  - done.
  - done.
  - unfold AetherDrive.downloadFile, AetherDrive.on_fileManager,
      FileManager.downloadFile, FileManager.on_storage.
    run. rewrite get_set_eq. simpl.
    rewrite downloadFile_mock, mockDownloadFile_run by done.
    simpl. rewrite get_set_eq. simpl. done.
  - simpl. by rewrite lookup_insert_eq.
  - unfold AetherDrive.decryptFile, in_world.
    rewrite (decryptFile_sealed E D kdf block_length block_inverse kdf_length
               download password Encryption.no_options _ salt iv p);
      [done| | |].
    + unfold salt. by rewrite length_fmap, length_seq.
    + unfold iv. by rewrite length_fmap, length_seq.
    + simpl. by rewrite lookup_insert_eq.
  - simpl. by rewrite lookup_insert_eq.
Qed.
End DriveFacts.

(** ** The test suite's storage mock *)

Section MockStorageFacts.
Import MockStorage.
Variable sha256_hex : Buffer → string.
Implicit Types (s : MockStorage) (w : World).



(** X24. The test suite's storage mock keeps no content in memory: a
    download of a stored id copies whatever the stored copy holds at that
    moment.  When the stored copy is gone the download fails with the
    file system's error under [Failed to download file: ], whereas an id
    that was never stored still gets the placeholder text; and a download
    onto the stored copy itself is refused. *)
Theorem mock_storage_download_follows_disk fileId destination options s w record :
  get fileId (files s) = Some record →
  (fs w !! st_path record = None →
   downloadFile fileId destination options (s, w)
   = (Throw (Error ("Failed to download file: "
                    +:+ message (Fs.ENOENT "lstat" (st_path record)))), (s, w)))
  ∧ (∀ current : Buffer,
       fs w !! st_path record = Some current → destination ≠ st_path record →
       downloadFile fileId destination options (s, w)
       = (Ok destination, (s, set_fs (insert destination current) w)))
  ∧ (is_Some (fs w !! st_path record) → destination = st_path record →
     downloadFile fileId destination options (s, w)
     = (Throw (Error ("Failed to download file: "
                      +:+ "Source and destination must not be the same.")), (s, w)))
  ∧ (∀ unknown, get unknown (files s) = None →
       downloadFile unknown destination options (s, w)
       = (Ok destination,
          (s, set_fs (insert destination
                        (Buffer_from ("Mock content for file ID: " +:+ unknown))) w))).
Proof.
  intros Hget. split_and!.
  - intros Hgone. unfold downloadFile, FsExtra.copy. run.
    rewrite Hget. simpl. by rewrite Hgone.
  - intros current Hcopy Hne. unfold downloadFile, FsExtra.copy. run.
    rewrite Hget. simpl. rewrite Hcopy. by rewrite decide_False.
  - intros [current Hcopy] ->. unfold downloadFile, FsExtra.copy. run.
    rewrite Hget. simpl. rewrite Hcopy. by rewrite decide_True.
  - intros unknown Hnone. unfold downloadFile. run. by rewrite Hnone.
Qed.
End MockStorageFacts.

(** ** The test suite's client mock *)

Section MockIpfsFacts.
Import MockIpfs.
Variable sha256_hex : Buffer → string.
Implicit Types (s : MockIpfs) (w : World).

Lemma chunkSize_positive : 0 < chunkSize.
Proof. unfold chunkSize. lia. Qed.

Lemma chunks_from_concat fuel (content : Buffer) offset :
  length content - offset ≤ fuel →
  concat (chunks_from fuel content offset) = drop offset content.
Proof.
  pose proof chunkSize_positive as Hpos.
  revert offset. induction fuel as [|fuel IH]; intros offset Hfuel; simpl.
  - rewrite drop_ge; [done|lia].
  - destruct (decide (offset < length content)) as [Hlt|Hge].
    + simpl. rewrite IH by lia.
      set (stop := Nat.min (offset + chunkSize) (length content)).
      replace stop with (offset + (stop - offset)) at 2 by lia.
      rewrite <- drop_drop. apply take_drop.
    + rewrite drop_ge; [done|lia].
Qed.

Lemma chunks_from_bounds fuel (content : Buffer) offset :
  Forall (λ chunk : Buffer, 0 < length chunk ≤ chunkSize)
    (chunks_from fuel content offset).
Proof.
  pose proof chunkSize_positive as Hpos.
  revert offset. induction fuel as [|fuel IH]; intros offset; simpl; [done|].
  destruct (decide (offset < length content)) as [Hlt|Hge]; [|done].
  apply Forall_cons. split; [|apply IH].
  rewrite length_take, length_drop. lia.
Qed.

Lemma chunks_from_count fuel (content : Buffer) offset :
  length content - offset ≤ fuel →
  length (chunks_from fuel content offset) * chunkSize
  < length content - offset + chunkSize
  ∧ length content - offset ≤ length (chunks_from fuel content offset) * chunkSize.
Proof.
  pose proof chunkSize_positive as Hpos.
  revert offset. induction fuel as [|fuel IH]; intros offset Hfuel;
    cbn [chunks_from].
  - cbn [length]. lia.
  - destruct (decide (offset < length content)) as [Hlt|Hge];
      cbv zeta; cbn [length]; [|lia].
    remember (Nat.min (offset + chunkSize) (length content)) as stop eqn:Hstop.
    destruct (IH stop) as [Hup Hlow]; [lia|].
    destruct (decide (offset + chunkSize < length content)) as [Hmore|Hlast];
      [lia|].
    destruct (length (chunks_from fuel content stop)) as [|others]; [lia|].
    exfalso. revert Hup. cbn [Nat.mul]. lia.
Qed.

(** X25. The chunks [cat] yields for a stored file: joined in order
    they are the file's content; no chunk is empty and none is longer than
    1024 octets; and there are as many as the length divided by 1024,
    rounded up.  In particular an empty file yields no chunk at all. *)
Theorem cat_chunks_rebuild_content (content : Buffer) :
  concat (chunks content) = content
  ∧ Forall (λ chunk : Buffer, 0 < length chunk ≤ 1024) (chunks content)
  ∧ length (chunks content) = (length content + 1023) `div` 1024
  ∧ (content = [] → chunks content = []).
Proof.
  unfold chunks. split_and!.
  - rewrite chunks_from_concat by lia. done.
  - apply chunks_from_bounds.
  - destruct (chunks_from_count (length content) content 0) as [Hup Hlow]; [lia|].
    unfold chunkSize in Hup, Hlow.
    apply Nat.div_unique with
      (r := length content + 1023 - 1024 * length (chunks_from (length content) content 0));
      lia.
  - by intros ->.
Qed.

Lemma join_not_empty a b : Path.join a b ≠ "".
Proof. unfold Path.join. by destruct a. Qed.

Lemma add_run (content : Buffer) s w :
  let cid := generateCid sha256_hex content in
  let filePath := Path.join (tempDir s) cid in
  add sha256_hex content (s, w) =
  (Ok cid,
   ({| files := set cid filePath (files s);
       pins := set cid {| pin_cid := cid; pin_type := "recursive" |} (pins s);
       tempDir := tempDir s |},
    set_fs (insert filePath content) w)).
Proof. cbv zeta. unfold add. by run. Qed.

(** X26. With the test suite's client mock, adding content and reading
    it back by the returned CID yields chunks that join to the content;
    the CID is [QmMock] followed by the first 32 hexadecimal digits of the
    content's digest, and it is listed as a [recursive] pin. *)
Theorem mock_ipfs_add_then_cat (content : Buffer) s w :
  ∃ s1 w1 yielded listed,
    add sha256_hex content (s, w)
    = (Ok ("QmMock" +:+ String.substring 0 32 (sha256_hex content)), (s1, w1))
    ∧ cat ("QmMock" +:+ String.substring 0 32 (sha256_hex content)) (s1, w1)
      = (Ok yielded, (s1, w1))
    ∧ concat yielded = content
    ∧ listPins (s1, w1) = (Ok listed, (s1, w1))
    ∧ ("QmMock" +:+ String.substring 0 32 (sha256_hex content), "recursive") ∈ listed.
Proof.
  rewrite add_run. cbv zeta. fold (generateCid sha256_hex content).
  set (cid := generateCid sha256_hex content).
  eexists _, _, (chunks content), _. split_and!; [done| | |done|].
  - unfold cat. run. rewrite get_set_eq.
    pose proof (join_not_empty (tempDir s) cid) as Hne.
    destruct (Path.join (tempDir s) cid) as [|c rest] eqn:Hjoin; [done|].
    simpl. rewrite lookup_insert_eq. done.
  - unfold chunks. rewrite chunks_from_concat by lia. done.
  - simpl. apply list_elem_of_fmap.
    exists (cid, {| pin_cid := cid; pin_type := "recursive" |}). split; [done|].
    apply get_elem_of, get_set_eq.
Qed.

(** X27. Unpinning with the client mock: an unknown CID is accepted and
    changes nothing; a pinned CID loses its pin, and its content stays
    readable unless [removeFile] is set, in which case the stored file is
    removed and reading the CID yields the placeholder text. *)
Theorem mock_ipfs_unpin cid options s w :
  (get cid (pins s) = None →
   unpinFile cid options (s, w) = (Ok (), (s, w)))
  ∧ (is_Some (get cid (pins s)) →
     ∃ s' w',
       unpinFile cid options (s, w) = (Ok (), (s', w'))
       ∧ get cid (pins s') = None
       ∧ (∀ other, other ≠ cid → get other (pins s') = get other (pins s))
       ∧ (removeFile options = false → files s' = files s ∧ w' = w)
       ∧ (removeFile options = true →
          get cid (files s') = None
          ∧ cat cid (s', w')
            = (Ok [Buffer_from ("Mock content for " +:+ cid)], (s', w')))).
Proof.
  split.
  - intros Hnone. unfold unpinFile. run. by rewrite Hnone.
  - intros [pin Hpin]. unfold unpinFile. run. rewrite Hpin. simpl.
    destruct (removeFile options), (get cid (files s)) as [filePath|] eqn:Hfile;
      simpl; eexists _, _; (split; [done|]); simpl;
      (split_and!;
       [apply get_delete_eq
       |by intros other Hne; apply get_delete_ne
       |done
       |try done]).
    + intros _. split; [apply get_delete_eq|].
      unfold cat. run. by rewrite get_delete_eq.
    + intros _. split; [done|].
      unfold cat. run. by rewrite Hfile.
Qed.
End MockIpfsFacts.

(** ** Concrete runs of the further properties *)

(** A run whose outcome is known, written out as a triple. *)
Lemma run_outcome {A Σ1 Σ2} (t : Result A * (Σ1 * Σ2)) (a : A) :
  t.1 = Ok a → t = (Ok a, (t.2.1, t.2.2)).
Proof. destruct t as [r [s w]]. simpl. by intros ->. Qed.

Lemma stored_twice_filed : Invariants.filed Fixtures.stored_twice.2.1.
Proof.
  split.
  - vm_compute. apply NoDup_cons. split; [|apply NoDup_singleton].
    by intros ?%list_elem_of_singleton.
  - intros k f Hin. vm_compute in Hin.
    apply elem_of_cons in Hin as [Hin|Hin]; [by simplify_eq|].
    apply list_elem_of_singleton in Hin. by simplify_eq.
Qed.



Lemma encryptFile_effect_witness :
  fs Fixtures.note_world !! "/n.txt" = Some Fixtures.note
  ∧ ∃ envelope world',
      Encryption.encryptFile Sample.block Sample.kdf "/n.txt" "pw1"
        Encryption.no_options Fixtures.note_world = (Ok "/n.txt.enc", world')
      ∧ fs world' = <["/n.txt.enc" := envelope]> (fs Fixtures.note_world)
      ∧ clock world' = clock Fixtures.note_world.
Proof.
  split; [reflexivity|].
  destruct (encryptFile_effect Sample.block Sample.kdf sample_kdf_length
              "/n.txt" "pw1" Encryption.no_options Fixtures.note_world
              Fixtures.note)
    as (envelope & world' & Hrun & Hfs & _ & _ & _ & _ & _ & Hclock);
    [reflexivity|].
  exists envelope, world'. split; [exact Hrun|]. split; [exact Hfs|exact Hclock].
Defined.


Lemma decrypt_rejects_ragged_envelope_witness :
  fs Fixtures.ragged_world !! "/r.enc" = Some Fixtures.ragged
  ∧ 32 ≤ length Fixtures.ragged
  ∧ (length Fixtures.ragged - 32) `mod` 16 = 8
  ∧ Encryption.decryptFile Sample.block Sample.kdf "/r.enc" "pw1"
      Encryption.no_options Fixtures.ragged_world
    = (Throw (Error ("Failed to decrypt file: "
                     +:+ "Decryption failed, possibly due to incorrect password: "
                     +:+ message Crypto.ERR_OSSL_WRONG_FINAL_BLOCK_LENGTH)),
       Fixtures.ragged_world).
Proof.
  split; [reflexivity|]. split; [simpl; lia|]. split; [reflexivity|].
  apply (decrypt_rejects_ragged_envelope Sample.block Sample.kdf sample_kdf_length
           Fixtures.ragged "pw1" "/r.enc" Encryption.no_options
           Fixtures.ragged_world);
    [reflexivity|simpl; lia|right; by vm_compute].
Defined.


Lemma storage_delete_and_list_never_fail_witness :
  Storage.storageType Fixtures.online_storage = "ipfs"
  ∧ ∃ σ, Storage.deleteFile Fixtures.flaky "QmSample" no_options
           (Fixtures.online_storage, Sample.world54) = (Ok true, σ).
Proof.
  split; [reflexivity|].
  destruct (storage_delete_and_list_never_fail Fixtures.flaky
              Fixtures.online_storage Sample.world54)
    as (Hdelete & _); [reflexivity|]. apply Hdelete.
Defined.

Lemma outage_download_writes_placeholder_witness :
  Storage.storageType Fixtures.online_storage = "ipfs"
  ∧ Storage.usingMock Fixtures.online_storage = false
  ∧ Storage.ipfs Fixtures.online_storage = Some 1
  ∧ fs Sample.world54 !! "/data/a.txt" = Some Sample.text54
  ∧ get "QmSample" (Storage.files Fixtures.online_storage) = None
  ∧ Storage.ipfs_add Fixtures.flaky Sample.text54 no_options 1 = (Ok "QmSample", 0)
  ∧ Storage.ipfs_cat Fixtures.flaky "QmSample" no_options 0
    = (Throw (Error "connect ECONNREFUSED"), 0)
  ∧ ∃ s1 s2 w2,
      Storage.uploadFile Fixtures.flaky Sample.digest_hex "/data/a.txt" no_options
        (Fixtures.online_storage, Sample.world54) = (Ok "QmSample", (s1, Sample.world54))
      ∧ Storage.downloadFile Fixtures.flaky "QmSample" "/data/back.txt" no_options
          (s1, Sample.world54) = (Ok "/data/back.txt", (s2, w2))
      ∧ fs w2 !! "/data/back.txt"
        = Some (Buffer_from "Mock content for file ID: QmSample").
Proof.
  do 7 (split; [reflexivity|]).
  destruct (outage_download_writes_placeholder Fixtures.flaky Sample.digest_hex
              Fixtures.online_storage Sample.world54 "/data/a.txt" Sample.text54
              no_options 1 "QmSample" 0 "/data/back.txt" no_options
              (Error "connect ECONNREFUSED") 0)
    as (s1 & s2 & w2 & Hup & _ & _ & Hdown & Hfs & _); try reflexivity.
  exists s1, s2, w2. split; [exact Hup|]. split; [exact Hdown|exact Hfs].
Defined.


Lemma mock_upload_same_id_replaces_witness :
  Storage.storageType Sample.mock_storage = "ipfs"
  ∧ Storage.usingMock Sample.mock_storage = true
  ∧ fs Fixtures.trio_world !! "/data/a.txt" = Some (Buffer_from "same-A")
  ∧ Fixtures.stored_a.1 = Ok "mock-73616d65"
  ∧ fs Fixtures.stored_a.2.2 !! "/data/b.txt" = Some (Buffer_from "same-B")
  ∧ Fixtures.stored_b.1 = Ok "mock-73616d65"
  ∧ length (Storage.files Fixtures.stored_b.2.1)
    = length (Storage.files Fixtures.stored_a.2.1)
  ∧ Storage.downloadFile Sample.offline "mock-73616d65" "/data/back.txt" no_options
      Fixtures.stored_b.2
    = (Ok "/data/back.txt",
       (Fixtures.stored_b.2.1,
        set_fs (insert "/data/back.txt" (Buffer_from "same-B")) Fixtures.stored_b.2.2)).
Proof.
  assert (Ha : Fixtures.stored_a.1 = Ok "mock-73616d65") by (vm_compute; reflexivity).
  assert (Hb : Fixtures.stored_b.1 = Ok "mock-73616d65") by (vm_compute; reflexivity).
  assert (Hfile : fs Fixtures.stored_a.2.2 !! "/data/b.txt"
                  = Some (Buffer_from "same-B")) by (vm_compute; reflexivity).
  do 3 (split; [reflexivity|]).
  split; [exact Ha|]. split; [exact Hfile|]. split; [exact Hb|].
  destruct (mock_upload_same_id_replaces Sample.offline Sample.digest_hex
              Sample.mock_storage Fixtures.trio_world "/data/a.txt" "/data/b.txt"
              no_options no_options (Buffer_from "same-A") (Buffer_from "same-B")
              "mock-73616d65" "mock-73616d65"
              Fixtures.stored_a.2.1 Fixtures.stored_a.2.2
              Fixtures.stored_b.2.1 Fixtures.stored_b.2.2)
    as (_ & Hsame);
    [reflexivity|reflexivity|reflexivity
    |exact (run_outcome Fixtures.stored_a "mock-73616d65" Ha)
    |exact Hfile
    |exact (run_outcome Fixtures.stored_b "mock-73616d65" Hb)|].
  destruct (Hsame eq_refl) as (_ & Hlength & Hdownload).
  split; [exact Hlength|]. apply Hdownload.
Defined.

Lemma mock_delete_effect_witness :
  Storage.storageType Fixtures.stored_a.2.1 = "ipfs"
  ∧ Storage.usingMock Fixtures.stored_a.2.1 = true
  ∧ is_Some (get "mock-73616d65" (Storage.files Fixtures.stored_a.2.1))
  ∧ ∃ s' w',
      Storage.deleteFile Sample.offline "mock-73616d65" no_options
        (Fixtures.stored_a.2.1, Fixtures.stored_a.2.2) = (Ok true, (s', w'))
      ∧ get "mock-73616d65" (Storage.files s') = None.
Proof.
  split; [reflexivity|]. split; [reflexivity|]. split; [by vm_compute; eexists|].
  destruct (mock_delete_effect Sample.offline Fixtures.stored_a.2.1
              Fixtures.stored_a.2.2 "mock-73616d65" no_options)
    as (s' & w' & Hrun & Hgone & _); try reflexivity.
  exists s', w'. split; [exact Hrun|exact Hgone].
Defined.

Lemma mock_listing_matches_store_witness :
  Storage.storageType Fixtures.stored_twice.2.1 = "ipfs"
  ∧ Storage.usingMock Fixtures.stored_twice.2.1 = true
  ∧ Invariants.filed Fixtures.stored_twice.2.1
  ∧ keys (Storage.files Fixtures.stored_twice.2.1) = ["first"; "second"]
  ∧ ∃ listed,
      Storage.listFiles Sample.offline no_options
        (Fixtures.stored_twice.2.1, Fixtures.stored_twice.2.2)
      = (Ok listed, (Fixtures.stored_twice.2.1, Fixtures.stored_twice.2.2))
      ∧ Storage.l_id <$> listed = keys (Storage.files Fixtures.stored_twice.2.1)
      ∧ NoDup (Storage.l_id <$> listed).
Proof.
  assert (Htype : Storage.storageType Fixtures.stored_twice.2.1 = "ipfs")
    by (by vm_compute).
  assert (Hmock : Storage.usingMock Fixtures.stored_twice.2.1 = true)
    by (by vm_compute).
  split; [exact Htype|]. split; [exact Hmock|]. split; [exact stored_twice_filed|].
  split; [by vm_compute|].
  destruct (mock_listing_matches_store Sample.offline Fixtures.stored_twice.2.1
              Fixtures.stored_twice.2.2 no_options Htype Hmock stored_twice_filed)
    as (listed & Hrun & Hids & Hunique & _).
  exists listed. split; [exact Hrun|]. split; [exact Hids|exact Hunique].
Defined.

Lemma upload_files_record_witness :
  fs Sample.world54 !! "/data/a.txt" = Some Sample.text54
  ∧ Fixtures.stored_54.1 = Ok "mock-54686973"
  ∧ fs Fixtures.stored_54.2.2 !! "/data/a.txt" = Some Sample.text54
  ∧ ∃ newId fm' w' record,
      @FileManager.uploadFile _ Sample.provider "/data/a.txt" no_options
        (Sample.manager, Sample.world54) = (Ok newId, (fm', w'))
      ∧ get newId (FileManager.fileRegistry fm') = Some record
      ∧ FileManager.storageId record = "mock-54686973"
      ∧ FileManager.name record = "a.txt"
      ∧ FileManager.size record = 54
      ∧ String.length newId = 36.
Proof.
  split; [reflexivity|]. split; [by vm_compute|]. split; [by vm_compute|].
  destruct (@upload_files_record _ Sample.provider "/data/a.txt" no_options
              Sample.manager Sample.world54 Sample.text54 Sample.text54
              "mock-54686973" Fixtures.stored_54.2.1 Fixtures.stored_54.2.2)
    as (newId & fm' & w' & Hrun & Hget & _ & _ & _ & _ & _ & Hgenerated);
    try reflexivity.
  exists newId, fm', w'. eexists. split; [exact Hrun|]. split; [exact Hget|].
  split; [reflexivity|]. split; [reflexivity|]. split; [reflexivity|].
  apply Hgenerated. reflexivity.
Defined.

Lemma uploaded_well_formed :
  Invariants.well_formed (FileManager.fileRegistry Sample.uploaded.1).
Proof.
  split.
  - vm_compute. apply NoDup_singleton.
  - intros k v Hin. vm_compute in Hin.
    apply list_elem_of_singleton in Hin. by simplify_eq.
Qed.

Lemma listing_matches_registry_witness :
  Invariants.well_formed (FileManager.fileRegistry Sample.uploaded.1)
  ∧ ∃ listed,
      @FileManager.listFiles _ no_options (Sample.uploaded.1, Sample.uploaded.2)
      = (Ok listed, (Sample.uploaded.1, Sample.uploaded.2))
      ∧ FileManager.id <$> listed = keys (FileManager.fileRegistry Sample.uploaded.1)
      ∧ NoDup (FileManager.id <$> listed).
Proof.
  split; [exact uploaded_well_formed|].
  destruct (@listing_matches_registry (Storage.Storage ()) Sample.uploaded.1
              Sample.uploaded.2 no_options uploaded_well_formed)
    as (listed & Hrun & Hids & Hunique & _).
  exists listed. split; [exact Hrun|]. split; [exact Hids|exact Hunique].
Defined.


Lemma upload_then_download_restores_content_witness :
  Storage.storageType (FileManager.storage Sample.manager) = "ipfs"
  ∧ Storage.usingMock (FileManager.storage Sample.manager) = true
  ∧ fs Sample.world54 !! "/data/a.txt" = Some Sample.text54
  ∧ ∃ newId fm1 w1,
      @FileManager.uploadFile _ Sample.provider "/data/a.txt" no_options
        (Sample.manager, Sample.world54) = (Ok newId, (fm1, w1))
      ∧ @FileManager.downloadFile _ Sample.provider newId "/data/back.txt" no_options
          (fm1, Sample.short_world)
        = (Ok "/data/back.txt",
           (fm1, set_fs (insert "/data/back.txt" Sample.text54) Sample.short_world)).
Proof.
  do 3 (split; [reflexivity|]).
  destruct (upload_then_download_restores_content Sample.offline Sample.digest_hex
              "/data/a.txt" no_options Sample.manager Sample.world54 Sample.text54)
    as (newId & fm1 & w1 & Hrun & Hback); try reflexivity.
  exists newId, fm1, w1. split; [exact Hrun|apply Hback].
Defined.

Lemma delete_of_duplicate_breaks_other_witness :
  Storage.storageType (FileManager.storage Sample.manager) = "ipfs"
  ∧ Storage.usingMock (FileManager.storage Sample.manager) = true
  ∧ fs Fixtures.trio_world !! "/data/a.txt" = Some (Buffer_from "same-A")
  ∧ Fixtures.registered_a.1 = Ok "030a1118-1f26-4d34-bb42-4950575e656c"
  ∧ fs Fixtures.registered_a.2.2 !! "/data/c.txt" = Some (Buffer_from "same-A")
  ∧ Fixtures.registered_c.1 = Ok "737a8188-8f96-4da4-abb2-b9c0c7ced5dc"
  ∧ ∃ fm3 w3,
      @FileManager.deleteFile _ Sample.provider "030a1118-1f26-4d34-bb42-4950575e656c"
        no_options (Fixtures.registered_c.2.1, Fixtures.registered_c.2.2)
      = (Ok true, (fm3, w3))
      ∧ @FileManager.downloadFile _ Sample.provider
          "737a8188-8f96-4da4-abb2-b9c0c7ced5dc" "/data/back.txt" no_options (fm3, w3)
        = (Ok "/data/back.txt",
           (fm3, set_fs (insert "/data/back.txt"
                           (Buffer_from "Mock content for file ID: mock-73616d65"))
                   w3)).
Proof.
  assert (Ha : Fixtures.registered_a.1 = Ok "030a1118-1f26-4d34-bb42-4950575e656c")
    by (vm_compute; reflexivity).
  assert (Hfile : fs Fixtures.registered_a.2.2 !! "/data/c.txt"
                  = Some (Buffer_from "same-A")) by (vm_compute; reflexivity).
  assert (Hc : Fixtures.registered_c.1 = Ok "737a8188-8f96-4da4-abb2-b9c0c7ced5dc")
    by (vm_compute; reflexivity).
  do 3 (split; [reflexivity|]).
  split; [exact Ha|]. split; [exact Hfile|]. split; [exact Hc|].
  destruct (delete_of_duplicate_breaks_other Sample.offline Sample.digest_hex
              "/data/a.txt" "/data/c.txt" no_options no_options Sample.manager
              Fixtures.trio_world (Buffer_from "same-A")
              "030a1118-1f26-4d34-bb42-4950575e656c"
              "737a8188-8f96-4da4-abb2-b9c0c7ced5dc"
              Fixtures.registered_a.2.1 Fixtures.registered_a.2.2
              Fixtures.registered_c.2.1 Fixtures.registered_c.2.2)
    as (fm3 & w3 & Hdelete & _ & Hdownload);
    [reflexivity|reflexivity|reflexivity|reflexivity|reflexivity
    |exact (run_outcome Fixtures.registered_a _ Ha)
    |exact Hfile
    |exact (run_outcome Fixtures.registered_c _ Hc)
    |discriminate|].
  exists fm3, w3. split; [exact Hdelete|apply Hdownload].
Defined.

Lemma encrypted_upload_roundtrip_witness :
  Storage.storageType (AetherDrive.storage Fixtures.drive) = "ipfs"
  ∧ Storage.usingMock (AetherDrive.storage Fixtures.drive) = true
  ∧ fs Fixtures.note_world !! "/n.txt" = Some Fixtures.note
  ∧ ∃ newId drive2 w2 w3 w4,
      AetherDrive.downloadFile Sample.offline Sample.digest_hex newId "/back.enc"
        no_options (drive2, w2) = (Ok "/back.enc", (drive2, w3))
      ∧ AetherDrive.decryptFile Sample.block Sample.kdf "/back.enc" "pw1"
          Encryption.no_options (drive2, w3) = (Ok "/back.dec", (drive2, w4))
      ∧ fs w4 !! "/back.dec" = Some Fixtures.note.
Proof.
  do 3 (split; [reflexivity|]).
  destruct (encrypted_upload_roundtrip Sample.block Sample.block Sample.kdf
              Sample.offline Sample.digest_hex
              sample_block_length sample_block_inverse sample_kdf_length
              Fixtures.drive Fixtures.note_world "/n.txt" "pw1" Fixtures.note
              "/back.enc")
    as (w1 & newId & drive2 & w2 & envelope & w3 & w4 & record
        & _ & _ & _ & _ & _ & _ & Hdown & _ & Hdec & Hplain); try reflexivity.
  exists newId, drive2, w2, w3, w4.
  split; [exact Hdown|]. split; [exact Hdec|exact Hplain].
Defined.


Lemma mock_storage_download_follows_disk_witness :
  get "custom" (MockStorage.files Fixtures.shelved.2.1)
  = Some {| MockStorage.st_id := "custom";
            MockStorage.st_path := "/tmp/aetherdrive-mock-storage-0/custom";
            MockStorage.st_originalPath := "/data/a.txt";
            MockStorage.st_size := 54;
            MockStorage.st_createdAt := 1700000000000 |}
  ∧ fs Sample.world54 !! "/tmp/aetherdrive-mock-storage-0/custom" = None
  ∧ MockStorage.downloadFile "custom" "/data/back.txt" no_options
      (Fixtures.shelved.2.1, Sample.world54)
    = (Throw (Error ("Failed to download file: "
                     +:+ message (Fs.ENOENT "lstat"
                                    "/tmp/aetherdrive-mock-storage-0/custom"))),
       (Fixtures.shelved.2.1, Sample.world54)).
Proof.
  split; [by vm_compute|]. split; [reflexivity|].
  destruct (mock_storage_download_follows_disk "custom" "/data/back.txt" no_options
              Fixtures.shelved.2.1 Sample.world54
              {| MockStorage.st_id := "custom";
                 MockStorage.st_path := "/tmp/aetherdrive-mock-storage-0/custom";
                 MockStorage.st_originalPath := "/data/a.txt";
                 MockStorage.st_size := 54;
                 MockStorage.st_createdAt := 1700000000000 |})
    as (Hgone & _); [by vm_compute|].
  apply Hgone. reflexivity.
Defined.
